(** * dyld bootstrap (dyld-750.6): self-relocation and transactional loading

    The first half of this development embeds [dyldInitialization.cpp]
    ([rebaseDyld], [start], [start_sim]) as programs of a small state and
    abort monad that records every call the bootstrap makes.  The second
    half models the fixup chain decoder and the load orchestrator that the
    bootstrap and the [dlopen-fail-cleanly] test rely on. *)

From Stdlib Require Import ZArith Lia.
From stdpp Require Import base option list gmap strings fin_maps.

Local Open Scope Z_scope.

(** ** Machine integers *)

Definition UINTPTR_BITS : Z := 64.
Definition UINTPTR_MODULUS : Z := 2 ^ UINTPTR_BITS.

(** Conversion to [uintptr_t] (and pointer arithmetic) wraps modulo 2^64. *)
Definition to_uintptr (z : Z) : Z := z mod UINTPTR_MODULUS.

(** Conversion to [long]: the two's complement reading of the low 64 bits. *)
Definition to_long (z : Z) : Z :=
  let u := z mod UINTPTR_MODULUS in
  if u <? UINTPTR_MODULUS / 2 then u else u - UINTPTR_MODULUS.

Definition is_pointer (p : Z) : Prop := 0 <= p < UINTPTR_MODULUS.

(** <mach/vm_prot.h> *)
Definition VM_PROT_NONE : Z := 0.
Definition VM_PROT_READ : Z := 1.
Definition VM_PROT_WRITE : Z := 2.
Definition VM_PROT_EXECUTE : Z := 4.

Definition writable (prot : Z) : bool := negb (Z.land prot VM_PROT_WRITE =? 0).

(** ** Fixup chains *)

Module FixupChain.

(** Modelled from the spec: the data model of a fixup chain (section 3);
    the chain format is declared outside the bootstrap file.  Kind and
    payload of one slot descriptor. *)
Inductive fixup_kind : Type :=
| rebase (target_offset : Z)
| bind (ordinal : nat) (addend : Z).

Record slot_descriptor : Type := SlotDescriptor {
  slot_offset : Z;            (* relative to the segment start *)
  kind : fixup_kind
}.

(** A fixup chain is the ordered sequence of its descriptors. *)
Definition fixup_chain : Type := list slot_descriptor.

Definition is_rebase (d : slot_descriptor) : bool :=
  match kind d with rebase _ => true | bind _ _ => false end.

Definition is_bind (d : slot_descriptor) : bool :=
  match kind d with rebase _ => false | bind _ _ => true end.

(** The chain of one segment, as the chain starts of an image list it:
    where the segment begins (offset from the mach header), how far it
    extends, and the chain itself. *)
Record segment_chain : Type := SegmentChain {
  segment_offset : Z;
  segment_size : Z;
  chain : fixup_chain
}.

(** Failures of the decoder.  [UnresolvedSymbol] identifies the image,
    the ordinal and the requesting slot. *)
Inductive fixup_error : Type :=
| MalformedFixupChain
| UnresolvedSymbol (image : string) (ordinal : nat) (slot : Z).

(** A resolved slot operation: the value to store and where. *)
Record slot_operation : Type := SlotOperation {
  op_address : Z;
  op_value : Z
}.

Definition POINTER_SIZE : Z := 8.

(** A pointer-sized slot at [off] lies within a segment of [size] bytes. *)
Definition slot_in_segment (size off : Z) : bool :=
  (0 <=? off) && (off + POINTER_SIZE <=? size).

Section Decoder.

(** The external-symbol table is indexed by ordinal; [resolve] gives the
    address of the symbol an entry of the table names, if it has one. *)
Context {symbol : Type}.
Variable image : string.
Variable resolve : symbol -> option Z.
Variable symbols : list symbol.
Variable segment_base : Z.
Variable size : Z.
Variable slide : Z.

(** Modelled from the spec: the Fixup Chain Decoder's treatment of one
    descriptor (section 4.1); the decoder's code is not part of the
    bootstrap file.  A slot outside the segment and an ordinal outside
    the table are rejected with [MalformedFixupChain]; a symbol that
    does not resolve is reported as [UnresolvedSymbol]. *)
Definition resolve_slot (d : slot_descriptor) : fixup_error + slot_operation :=
  if negb (slot_in_segment size (slot_offset d)) then inl MalformedFixupChain
  else
    match kind d with
    | rebase target_offset =>
        inr {| op_address := segment_base + slot_offset d;
               op_value := target_offset + slide |}
    | bind ordinal addend =>
        match symbols !! ordinal with
        | None => inl MalformedFixupChain
        | Some sym =>
            match resolve sym with
            | None => inl (UnresolvedSymbol image ordinal (slot_offset d))
            | Some address =>
                inr {| op_address := segment_base + slot_offset d;
                       op_value := address + addend |}
            end
        end
    end.

(** Modelled from the spec: decoding a chain into its sequence of
    resolved slot operations, in chain order, or the first failure
    (sections 4.1 and 9: the chain is validated before any write). *)
Fixpoint decode (c : fixup_chain) : fixup_error + list slot_operation :=
  match c with
  | [] => inr []
  | d :: rest =>
      match resolve_slot d with
      | inl e => inl e
      | inr op =>
          match decode rest with
          | inl e => inl e
          | inr ops => inr (op :: ops)
          end
      end
  end.

Definition write_slot (m : gmap Z Z) (op : slot_operation) : gmap Z Z :=
  <[op_address op := op_value op]> m.

(** Modelled from the spec: the decoder in apply mode.  It returns the
    failure, if any, and the memory it leaves. *)
Definition apply_chain (c : fixup_chain) (m : gmap Z Z)
  : option fixup_error * gmap Z Z :=
  match decode c with
  | inl e => (Some e, m)
  | inr ops => (None, foldl write_slot m ops)
  end.

End Decoder.

(** The entries a Rebase step and a Bind step apply. *)
Definition rebase_entries (c : fixup_chain) : fixup_chain := filter is_rebase c.
Definition bind_entries (c : fixup_chain) : fixup_chain := filter is_bind c.

End FixupChain.

(** ** What the Mach-O parser exposes of an image *)

(** [dyld3::MachOFile::SegmentInfo], the fields [rebaseDyld] reads. *)
Record SegmentInfo : Type := mkSegmentInfo {
  vmAddr : Z;
  vmSize : Z;
  readOnlyData : bool
}.

(** [dyld_chained_starts_in_image]: the chain of every segment that has one. *)
Definition dyld_chained_starts_in_image : Type := list FixupChain.segment_chain.

(** [Diagnostics]: empty, or holding the first error reported. *)
Definition Diagnostics : Type := option string.

Definition hasError (diag : Diagnostics) : bool :=
  match diag with Some _ => true | None => false end.

(** A loaded image, seen through [dyld3::MachOAnalyzer]: the address of its
    mach header and what the parser's accessors answer about it.
    [chainStarts] is what [withChainStarts] finds: the chain starts, or the
    error it reports when the image has none. *)
Record MachOAnalyzer : Type := mkMachOAnalyzer {
  mh_address : Z;
  hasChainedFixups : bool;
  segments : list SegmentInfo;
  chainStarts : string + dyld_chained_starts_in_image
}.

Definition MachOLoaded : Type := MachOAnalyzer.

(** ** Process state and the bootstrap monad *)

(** The loader globals this file touches. *)
Inductive global : Type :=
| gSyscallHelpers
| gProcessInfo.

(** Arguments handed to [dyld::_main]. *)
Record main_args : Type := mkMainArgs {
  ma_mainExecutableMH : Z;
  ma_mainExecutableSlide : Z;
  ma_argc : Z;
  ma_argv : nat;          (* positions in the kernel argument area *)
  ma_envp : nat;
  ma_apple : nat;
  ma_startGlue : Z
}.

(** Every call and every access to a loader global, in program order. *)
Inductive event : Type :=
| E_kdebug_trace_dyld_marker
| E_rebaseDyld (dyldMH : Z)
| E_assert (holds : bool)
| E_fixupAllChainedFixups (slide : Z) (bindTargets : list Z)
| E_assertNoError (failed : bool)
| E_mach_init
| E_mprotect (addr len prot : Z)
| E_global_write (g : global) (v : Z)
| E_global_read (g : global)
| E_guard_setup (apple : nat)
| E_getProcessInfo (sc : Z)
| E_syncProcessInfo
| E_getSlide (mh : Z).

Record proc_state : Type := mkProcState {
  st_memory : gmap Z Z;          (* pointer-sized slots, by address *)
  st_protection : Z -> Z;        (* memory protection, by address *)
  st_page_shift : nat;           (* the kernel's pages hold 2^shift bytes *)
  st_max_protection : Z -> option Z;
                                 (* by page number: the maximum protection
                                    of a mapped page, nothing for a hole *)
  st_gSyscallHelpers : Z;        (* NULL is 0 *)
  st_gProcessInfo : Z;
  st_trace : list event
}.

(** A computation either returns or aborts the process. *)
Inductive outcome (A : Type) : Type :=
| Returned (a : A) (s : proc_state)
| Aborted (s : proc_state).
Arguments Returned {A} a s.
Arguments Aborted {A} s.

Definition M (A : Type) : Type := proc_state -> outcome A.

Definition ret {A} (a : A) : M A := fun s => Returned a s.

Definition seq {A B} (m : M A) (k : A -> M B) : M B :=
  fun s => match m s with
           | Returned a s' => k a s'
           | Aborted s' => Aborted s'
           end.

#[global] Instance M_ret : MRet M := @ret.
#[global] Instance M_bind : MBind M := fun A B k m => seq m k.

Definition final_state {A} (o : outcome A) : proc_state :=
  match o with Returned _ s => s | Aborted s => s end.

Definition returned {A} (o : outcome A) : bool :=
  match o with Returned _ _ => true | Aborted _ => false end.

Definition emit (e : event) : M unit :=
  fun s => Returned tt
    {| st_memory := st_memory s; st_protection := st_protection s;
       st_page_shift := st_page_shift s;
       st_max_protection := st_max_protection s;
       st_gSyscallHelpers := st_gSyscallHelpers s;
       st_gProcessInfo := st_gProcessInfo s;
       st_trace := st_trace s ++ [e] |}.

Definition abort {A} : M A := fun s => Aborted s.

(** [assert(e)]: a failed assertion ends the process. *)
Definition c_assert (holds : bool) : M unit :=
  emit (E_assert holds);; if holds then ret tt else abort.

(** [diag.assertNoError()] *)
Definition assertNoError (diag : Diagnostics) : M unit :=
  emit (E_assertNoError (hasError diag));;
  if hasError diag then abort else ret tt.

Definition mach_init : M unit := emit E_mach_init.

Definition in_range (addr len a : Z) : bool := (addr <=? a) && (a <? addr + len).

(** The kernel's pages. *)
Definition page_size (shift : nat) : Z := 2 ^ Z.of_nat shift.

Definition page_aligned (shift : nat) (addr : Z) : bool :=
  addr mod page_size shift =? 0.

(** The end of the page that holds the byte before [x]. *)
Definition round_page (shift : nat) (x : Z) : Z :=
  (x + page_size shift - 1) / page_size shift * page_size shift.

(** The numbers of the pages that hold the bytes [addr, addr + len). *)
Definition pages_of (shift : nat) (addr len : Z) : list Z :=
  (fun k => addr / page_size shift + Z.of_nat k) <$>
  List.seq 0 (Z.to_nat (round_page shift (addr + len) / page_size shift
                        - addr / page_size shift)).

(** A page may be given the protection [prot] when it is mapped and its
    maximum protection holds every right of [prot]. *)
Definition may_protect (max_protection : Z -> option Z) (prot : Z) (page : Z)
  : bool :=
  match max_protection page with
  | Some max => Z.land prot max =? prot
  | None => false
  end.

(** Whether the kernel carries out [mprotect(addr, len, prot)]: [addr]
    must lie on a page boundary, and every page of the range be mapped
    and allow [prot]; else it changes nothing and reports an error. *)
Definition mprotect_succeeds (shift : nat) (max_protection : Z -> option Z)
    (addr len prot : Z) : bool :=
  page_aligned shift addr &&
  forallb (may_protect max_protection prot) (pages_of shift addr len).

(** [::mprotect(addr, len, prot)]: the protection primitive of the
    kernel, which acts on whole pages: on success every byte from [addr]
    to the end of the page of the last byte gets [prot] and the call
    returns 0; on failure nothing changes and it returns -1.  The
    bootstrap ignores its result. *)
Definition mprotect (addr len prot : Z) : M Z :=
  fun s =>
    let ok := mprotect_succeeds (st_page_shift s) (st_max_protection s)
                addr len prot in
    Returned (if ok then 0 else -1)
    {| st_memory := st_memory s;
       st_protection :=
         fun a => if ok && in_range addr (round_page (st_page_shift s) (addr + len)
                                          - addr) a
                  then prot else st_protection s a;
       st_page_shift := st_page_shift s;
       st_max_protection := st_max_protection s;
       st_gSyscallHelpers := st_gSyscallHelpers s;
       st_gProcessInfo := st_gProcessInfo s;
       st_trace := st_trace s ++ [E_mprotect addr len prot] |}.

Definition write_global (g : global) (v : Z) : M unit :=
  fun s => Returned tt
    {| st_memory := st_memory s; st_protection := st_protection s;
       st_page_shift := st_page_shift s;
       st_max_protection := st_max_protection s;
       st_gSyscallHelpers :=
         match g with gSyscallHelpers => v | _ => st_gSyscallHelpers s end;
       st_gProcessInfo :=
         match g with gProcessInfo => v | _ => st_gProcessInfo s end;
       st_trace := st_trace s ++ [E_global_write g v] |}.

Definition set_memory (m : gmap Z Z) : M unit :=
  fun s => Returned tt
    {| st_memory := m; st_protection := st_protection s;
       st_page_shift := st_page_shift s;
       st_max_protection := st_max_protection s;
       st_gSyscallHelpers := st_gSyscallHelpers s;
       st_gProcessInfo := st_gProcessInfo s;
       st_trace := st_trace s |}.

Definition get_memory : M (gmap Z Z) := fun s => Returned (st_memory s) s.

(** [ma->forEachSegment(^(info, stop) { ... })] with a block that never
    sets [stop]. *)
Fixpoint forEachSegment (segs : list SegmentInfo) (body : SegmentInfo -> M unit)
  : M unit :=
  match segs with
  | [] => ret tt
  | info :: rest => body info;; forEachSegment rest body
  end.

(** ** dyldInitialization.cpp *)

Module dyldbootstrap.

Section Bootstrap.

(** [MachOLoaded::fixupAllChainedFixups(diag, starts, slide, bindTargets,
    logFixup)]: lives in the Mach-O library, outside this file.  It
    receives the diagnostics object and the memory it patches, and hands
    both back. *)
Variable fixupAllChainedFixups :
  MachOAnalyzer -> Diagnostics -> dyld_chained_starts_in_image ->
  Z -> list Z -> gmap Z Z -> Diagnostics * gmap Z Z.

(** [MachOLoaded::getSlide()] *)
Variable getSlide : Z -> Z.

(** [dyld::_main] *)
Variable dyld_main : main_args -> M Z.

(** [ma->withChainStarts(diag, 0, ^(starts) { body })]: reports an error
    in [diag] when the image has no chain starts, runs the block on them
    otherwise. *)
Definition withChainStarts (ma : MachOAnalyzer) (diag : Diagnostics)
    (body : dyld_chained_starts_in_image -> M Diagnostics) : M Diagnostics :=
  match chainStarts ma with
  | inl err => ret (Some err)
  | inr starts => body starts
  end.

(** The slide [rebaseDyld] computes for the image at [ma]. *)
Definition slide_of (ma : MachOAnalyzer) : Z :=
  to_uintptr (to_long (mh_address ma)).

(** The block [rebaseDyld] hands to [forEachSegment]. *)
Definition mark_read_only (dyldMH : MachOLoaded) (info : SegmentInfo) : M unit :=
  if readOnlyData info then
    mprotect (to_uintptr (mh_address dyldMH + vmAddr info))
             (vmSize info) VM_PROT_READ;; ret tt
  else ret tt.

Definition rebaseDyld (dyldMH : MachOLoaded) : M unit :=
  emit (E_rebaseDyld (mh_address dyldMH));;
  (* walk all fixups chains and rebase dyld *)
  let ma : MachOAnalyzer := dyldMH in
  c_assert (hasChainedFixups ma);;
  (* all fixup chain based images have a base address of zero, so
     slide == load address *)
  let slide := slide_of ma in
  diag ← withChainStarts ma None (fun starts =>
            emit (E_fixupAllChainedFixups slide []);;
            mem ← get_memory;
            let '(diag', mem') :=
              fixupAllChainedFixups ma None starts slide [] mem in
            set_memory mem';;
            ret diag');
  assertNoError diag;;
  (* now that rebasing done, initialize mach/syscall layer *)
  mach_init;;
  (* mark __DATA_CONST segment in dyld as read-only (once fixups are done) *)
  forEachSegment (segments ma) (mark_read_only dyldMH).

(** What the [withChainStarts] call of [rebaseDyld] leaves when it runs
    on memory [mem]: the diagnostics and the memory. *)
Definition fixups_outcome (ma : MachOAnalyzer) (mem : gmap Z Z)
  : Diagnostics * gmap Z Z :=
  match chainStarts ma with
  | inl err => (Some err, mem)
  | inr starts => fixupAllChainedFixups ma None starts (slide_of ma) [] mem
  end.

(** The loop that advances [apple] to the NULL ending [envp], over the
    kernel argument area:
    the position of the first NULL at or after [i], if the area has one. *)
Fixpoint skip_to_null (area : list Z) (i : nat) : option nat :=
  match area with
  | [] => None
  | w :: rest =>
      match i with
      | O => if w =? 0 then Some O else S <$> skip_to_null rest O
      | S i' => S <$> skip_to_null rest i'
      end
  end.

(** [start], up to the call of [dyld::_main]: the arguments of that call.
    [area] is the kernel argument area [argv] points into; positions in
    it stand for the pointers [argv], [envp] and [apple].  The area is
    all the model knows of the stack: it stands for the code on areas as
    the kernel sets them up, with [argc] not negative and a NULL after
    the environment strings.  A scan that runs off the area stands for a
    read outside it and ends the run; for a negative [argc + 1] the code
    starts below [argv], where the model has no memory. *)
Definition start_bootstrap (appsMachHeader : Z) (argc : Z) (area : list Z)
    (dyldsMachHeader : MachOLoaded) (startGlue : Z) : M main_args :=
  (* Emit kdebug tracepoint to indicate dyld bootstrap has started *)
  emit E_kdebug_trace_dyld_marker;;
  (* if kernel had to slide dyld, we need to fix up load sensitive
     locations; we have to do this before using any global variables *)
  rebaseDyld dyldsMachHeader;;
  (* kernel sets up env pointer to be just past end of agv array *)
  let envp := Z.to_nat (argc + 1) in
  (* kernel sets up apple pointer to be just past end of envp array *)
  match skip_to_null area envp with
  | None => abort
  | Some null =>
      let apple := S null in
      (* set up random value for stack canary *)
      emit (E_guard_setup apple);;
      (* now that we are done bootstrapping dyld, call dyld's main *)
      emit (E_getSlide appsMachHeader);;
      let appsSlide := getSlide appsMachHeader in
      ret {| ma_mainExecutableMH := appsMachHeader;
             ma_mainExecutableSlide := appsSlide;
             ma_argc := argc; ma_argv := O; ma_envp := envp;
             ma_apple := apple; ma_startGlue := startGlue |}
  end.

Definition start (appsMachHeader : Z) (argc : Z) (area : list Z)
    (dyldsMachHeader : MachOLoaded) (startGlue : Z) : M Z :=
  args ← start_bootstrap appsMachHeader argc area dyldsMachHeader startGlue;
  dyld_main args.

(** [start_sim] (TARGET_OS_SIMULATOR), up to the call of [dyld::_main].
    [sc] is the host's table of syscall helpers and [sc_processInfo] what
    its [getProcessInfo] entry returns. *)
Definition start_sim_bootstrap (argc : Z) (argv envp apple : nat)
    (mainExecutableMH : Z) (dyldSimMH : MachOLoaded) (dyldSlide : Z)
    (sc : Z) (sc_processInfo : Z) (startGlue : Z) : M main_args :=
  (* save table of syscall pointers *)
  write_global gSyscallHelpers sc;;
  (* dyld_sim uses chained rebases, so it always need to be fixed up *)
  rebaseDyld dyldSimMH;;
  (* set up random value for stack canary *)
  emit (E_guard_setup apple);;
  (* setup gProcessInfo to point to host dyld's struct *)
  emit (E_getProcessInfo sc);;
  write_global gProcessInfo sc_processInfo;;
  emit E_syncProcessInfo;;
  (* now that we are done bootstrapping dyld, call dyld's main *)
  emit (E_getSlide mainExecutableMH);;
  let appsSlide := getSlide mainExecutableMH in
  ret {| ma_mainExecutableMH := mainExecutableMH;
         ma_mainExecutableSlide := appsSlide;
         ma_argc := argc; ma_argv := argv; ma_envp := envp;
         ma_apple := apple; ma_startGlue := startGlue |}.

Definition start_sim (argc : Z) (argv envp apple : nat)
    (mainExecutableMH : Z) (dyldSimMH : MachOLoaded) (dyldSlide : Z)
    (sc : Z) (sc_processInfo : Z) (startGlue : Z) : M Z :=
  args ← start_sim_bootstrap argc argv envp apple mainExecutableMH
            dyldSimMH dyldSlide sc sc_processInfo startGlue;
  dyld_main args.

End Bootstrap.

End dyldbootstrap.


(** ** The decoder as the bootstrap calls it *)

Definition fixup_error_message (e : FixupChain.fixup_error) : string :=
  match e with
  | FixupChain.MalformedFixupChain => "malformed fixup chain"
  | FixupChain.UnresolvedSymbol _ _ _ => "unresolved symbol"
  end.

(** Modelled from the spec: [MachOLoaded::fixupAllChainedFixups], which the
    bootstrap file calls and does not define.  It runs the Fixup Chain
    Decoder in apply mode over the chain of every segment in turn, with
    [bindTargets] as the external-symbol table of already resolved
    addresses, and stops at the first failure, which it records in [diag]. *)
Fixpoint fixupAllChainedFixups (ma : MachOAnalyzer) (diag : Diagnostics)
    (starts : dyld_chained_starts_in_image) (slide : Z) (bindTargets : list Z)
    (mem : gmap Z Z) : Diagnostics * gmap Z Z :=
  match starts with
  | [] => (diag, mem)
  | sc :: rest =>
      match FixupChain.apply_chain "dyld" Some bindTargets
              (mh_address ma + FixupChain.segment_offset sc)
              (FixupChain.segment_size sc) slide (FixupChain.chain sc) mem with
      | (Some e, mem') => (Some (fixup_error_message e), mem')
      | (None, mem') => fixupAllChainedFixups ma diag rest slide bindTargets mem'
      end
  end.

(** ** Images, the registry and load transactions *)

Module Loader.

Import FixupChain.

(** Modelled from the spec: the load engine behind [dlopen], of which the
    repository's files hold only a test.  The data model follows section
    3, the steps sections 4.3 and 4.4, the interfaces section 6. *)

(** Modelled from the spec: the lifecycle state of an image. *)
Inductive image_state : Type :=
| Unmapped | Mapped | Rebased | Bound | Initialized | Registered | Unwound.

Inductive segment_class : Type := ReadOnly | Writable | Executable.

Record Segment : Type := mkSegment {
  seg_start : Z;
  seg_size : Z;
  seg_class : segment_class;
  seg_chain : fixup_chain
}.

(** What running a declared initializer leads to. *)
Inductive init_outcome : Type :=
| InitCompletes
| InitSignalsFailure
| InitReentersOrchestrator.

(** Modelled from the spec: what the binary-format parser exposes of a
    binary (section 6). *)
Record Binary : Type := mkBinary {
  bin_preferred_base : Z;
  bin_segments : list Segment;
  bin_dependencies : list string;
  bin_external_symbols : list string;      (* names, by ordinal *)
  bin_exports : gmap string Z;             (* offset of each exported symbol *)
  bin_initializers : list init_outcome
}.

(** Modelled from the spec: an image (section 3).  Its segments and its
    declared dependencies are those of its binary. *)
Record Image : Type := mkImage {
  img_path : string;
  img_base : Z;
  img_slide : Z;
  img_binary : Binary;
  img_state : image_state;
  img_memory : gmap Z Z                    (* the slots of its segments *)
}.

Definition img_segments (img : Image) : list Segment :=
  bin_segments (img_binary img).
Definition img_dependencies (img : Image) : list string :=
  bin_dependencies (img_binary img).

Inductive load_error : Type :=
| FixupFailure (e : fixup_error)
| DependencyNotFound (id : string)
| IncompatibleDependency (id : string)
| CyclicUnloadableDependency (id : string)
| MappingFailure (path : string)
| InitializerFailure (path : string).

(** Modelled from the spec: the process as the loader sees it, that is the
    Process Image Registry, the reference counts of registered images and
    the resident regions. *)
Record Process : Type := mkProcess {
  registry : list Image;
  refcounts : gmap string nat;
  resident : list (Z * Z)
}.

(** Modelled from the spec: the introspection surface (section 6), the
    code behind [_dyld_image_count] and [_dyld_get_image_name]. *)
Definition image_count (p : Process) : nat := length (registry p).
Definition image_name_at (p : Process) (i : nat) : option string :=
  img_path <$> registry p !! i.

(** Modelled from the spec: an in-flight transaction of the Load
    Orchestrator, with the process it runs against, the nodes it
    introduced (dependencies before dependents) and the registered images
    whose reference count it incremented, latest first. *)
Record Transaction : Type := mkTransaction {
  t_process : Process;
  t_nodes : list Image;
  t_held : list string
}.

Definition begin (p : Process) : Transaction :=
  {| t_process := p; t_nodes := []; t_held := [] |}.

Definition step : Type := Transaction -> option load_error * Transaction.

Definition and_then (first next : step) : step :=
  fun t => match first t with
           | (Some e, t') => (Some e, t')
           | (None, t') => next t'
           end.

Definition set_state (st : image_state) (img : Image) : Image :=
  {| img_path := img_path img; img_base := img_base img;
     img_slide := img_slide img; img_binary := img_binary img;
     img_state := st; img_memory := img_memory img |}.

Definition set_memory_of (mem : gmap Z Z) (img : Image) : Image :=
  {| img_path := img_path img; img_base := img_base img;
     img_slide := img_slide img; img_binary := img_binary img;
     img_state := img_state img; img_memory := mem |}.

Definition paths (imgs : list Image) : list string := img_path <$> imgs.

(** What identifies an image throughout a transaction: its path and the
    binary it was made from. *)
Definition identity (img : Image) : string * Binary :=
  (img_path img, img_binary img).

Inductive load_result : Type :=
| Loaded (handle : string)
| Failed (reason : load_error).

Section Orchestrator.

(** External collaborators: the binaries the parser can locate, by
    identifier; the compatibility policy, given the requester if there
    is one; and the mapping primitive, which yields the base address of
    a newly mapped binary or fails. *)
Variable binaries : gmap string Binary.
Variable compatible : option string -> Binary -> bool.
Variable map_image : list (Z * Z) -> string -> Binary -> option Z.

Definition registered (p : Process) (id : string) : bool :=
  bool_decide (id ∈ paths (registry p)).

(** Reuse of a registered image: its reference count goes up by one and
    the transaction remembers it. *)
Definition retain (id : string) (t : Transaction) : Transaction :=
  {| t_process :=
       {| registry := registry (t_process t);
          refcounts := alter S id (refcounts (t_process t));
          resident := resident (t_process t) |};
     t_nodes := t_nodes t;
     t_held := id :: t_held t |}.

Definition new_image (id : string) (bin : Binary) : Image :=
  {| img_path := id; img_base := 0; img_slide := 0; img_binary := bin;
     img_state := Unmapped; img_memory := ∅ |}.

Definition add_node (img : Image) (t : Transaction) : Transaction :=
  {| t_process := t_process t; t_nodes := t_nodes t ++ [img];
     t_held := t_held t |}.

Fixpoint for_each_dependency (visit : string -> step) (deps : list string)
  : step :=
  fun t => match deps with
           | [] => (None, t)
           | dep :: rest =>
               match visit dep t with
               | (Some e, t') => (Some e, t')
               | (None, t') => for_each_dependency visit rest t'
               end
           end.

(** Modelled from the spec: the Dependency Resolver (section 4.3).  An
    identifier is satisfied by a registered image (reused), by a node
    this transaction already introduced (shared), or by a binary located
    now, whose dependencies are resolved before it joins the graph, so
    that the nodes come out dependencies first.  [avail] holds the
    binaries not yet on the path from the root, [stack] that path;
    [fuel] bounds the depth and is the size of [avail]. *)
Fixpoint resolve (fuel : nat) (avail : gmap string Binary)
    (stack : list string) (id : string) : step :=
  fun t =>
    if registered (t_process t) id then (None, retain id t)
    else if bool_decide (id ∈ paths (t_nodes t)) then (None, t)
    else if bool_decide (id ∈ stack) then
      (Some (CyclicUnloadableDependency id), t)
    else
      match fuel, avail !! id with
      | S fuel', Some bin =>
          if compatible (head stack) bin then
            match for_each_dependency
                    (resolve fuel' (delete id avail) (id :: stack))
                    (bin_dependencies bin) t with
            | (Some e, t') => (Some e, t')
            | (None, t') => (None, add_node (new_image id bin) t')
            end
          else (Some (IncompatibleDependency id), t)
      | _, _ => (Some (DependencyNotFound id), t)
      end.

(** Modelled from the spec: Collect (section 4.4, step 1), the resolver
    run from the root the transaction requests. *)
Definition collect (root : string) : step :=
  resolve (size binaries) binaries [] root.

(** The extent of a binary: where its furthest segment ends. *)
Definition image_extent (bin : Binary) : Z :=
  foldr (fun seg acc => Z.max (seg_start seg + seg_size seg) acc) 0
        (bin_segments bin).

Definition region_of (img : Image) : Z * Z :=
  (img_base img, image_extent (img_binary img)).

Definition mapped_at (base : Z) (img : Image) : Image :=
  {| img_path := img_path img; img_base := base;
     img_slide := base - bin_preferred_base (img_binary img);
     img_binary := img_binary img; img_state := Mapped;
     img_memory := img_memory img |}.

(** Modelled from the spec: Map (section 4.4, step 2).  Every new node
    in turn is mapped by the mapping primitive, which fixes its base and
    its slide; the first failure stops the step. *)
Fixpoint map_nodes (nodes : list Image) (res : list (Z * Z))
  : option load_error * list Image * list (Z * Z) :=
  match nodes with
  | [] => (None, [], res)
  | img :: rest =>
      match map_image res (img_path img) (img_binary img) with
      | None => (Some (MappingFailure (img_path img)), img :: rest, res)
      | Some base =>
          let img' := mapped_at base img in
          let '(e, rest', res') := map_nodes rest (region_of img' :: res) in
          (e, img' :: rest', res')
      end
  end.

Definition map_step : step :=
  fun t =>
    let '(e, nodes, res) := map_nodes (t_nodes t) (resident (t_process t)) in
    (e, {| t_process :=
             {| registry := registry (t_process t);
                refcounts := refcounts (t_process t);
                resident := res |};
           t_nodes := nodes; t_held := t_held t |}).

(** A step that treats every new node in turn, in the order of the
    graph; the first failure stops it and leaves the rest untouched. *)
Fixpoint for_each_node (f : Image -> load_error + Image) (nodes : list Image)
  : option load_error * list Image :=
  match nodes with
  | [] => (None, [])
  | img :: rest =>
      match f img with
      | inl e => (Some e, img :: rest)
      | inr img' =>
          let '(e, rest') := for_each_node f rest in (e, img' :: rest')
      end
  end.

Definition node_step (f : Image -> load_error + Image) : step :=
  fun t =>
    let '(e, nodes) := for_each_node f (t_nodes t) in
    (e, {| t_process := t_process t; t_nodes := nodes; t_held := t_held t |}).

(** The decoder in apply mode over the segments of an image. *)
Fixpoint apply_segments
    (fix_segment : gmap Z Z -> Segment -> option fixup_error * gmap Z Z)
    (segs : list Segment) (mem : gmap Z Z) : option fixup_error * gmap Z Z :=
  match segs with
  | [] => (None, mem)
  | seg :: rest =>
      match fix_segment mem seg with
      | (Some e, mem') => (Some e, mem')
      | (None, mem') => apply_segments fix_segment rest mem'
      end
  end.

(** Modelled from the spec: Rebase (section 4.4, step 3), the decoder in
    apply mode over the [rebase] entries only, against no symbol table. *)
Definition rebase_segment (img : Image) (mem : gmap Z Z) (seg : Segment)
  : option fixup_error * gmap Z Z :=
  apply_chain (img_path img) (fun _ : string => None) []
    (img_base img + seg_start seg) (seg_size seg) (img_slide img)
    (rebase_entries (seg_chain seg)) mem.

Definition rebase_image (img : Image) : load_error + Image :=
  match apply_segments (rebase_segment img) (img_segments img)
          (img_memory img) with
  | (Some e, _) => inl (FixupFailure e)
  | (None, mem) => inr (set_state Rebased (set_memory_of mem img))
  end.

Definition rebase_step : step := node_step rebase_image.

(** The first image of [known] at [path]. *)
Fixpoint find_image (known : list Image) (path : string) : option Image :=
  match known with
  | [] => None
  | img :: rest =>
      if decide (img_path img = path) then Some img else find_image rest path
  end.

(** The address of [sym] in the first of [deps] that exports it. *)
Fixpoint symbol_address (known : list Image) (deps : list string)
    (sym : string) : option Z :=
  match deps with
  | [] => None
  | dep :: rest =>
      match find_image known dep ≫= (fun d =>
              Z.add (img_base d) <$> bin_exports (img_binary d) !! sym) with
      | Some address => Some address
      | None => symbol_address known rest sym
      end
  end.

(** Modelled from the spec: Bind (section 4.4, step 4), the decoder in
    apply mode over the [bind] entries only, each ordinal resolved against
    the exported-symbol tables of the image's dependencies. *)
Definition bind_segment (known : list Image) (img : Image) (mem : gmap Z Z)
    (seg : Segment) : option fixup_error * gmap Z Z :=
  apply_chain (img_path img)
    (symbol_address known (img_dependencies img))
    (bin_external_symbols (img_binary img))
    (img_base img + seg_start seg) (seg_size seg) (img_slide img)
    (bind_entries (seg_chain seg)) mem.

Definition bind_image (known : list Image) (img : Image) : load_error + Image :=
  match apply_segments (bind_segment known img) (img_segments img)
          (img_memory img) with
  | (Some e, _) => inl (FixupFailure e)
  | (None, mem) => inr (set_state Bound (set_memory_of mem img))
  end.

Definition bind_step : step :=
  fun t => node_step (bind_image (registry (t_process t) ++ t_nodes t)) t.

(** Modelled from the spec: Initialize (section 4.4, step 5).  An
    initializer that signals failure, or re-enters the orchestrator, fails
    the transaction. *)
Definition completes (o : init_outcome) : bool :=
  match o with InitCompletes => true | _ => false end.

Definition initialize_image (img : Image) : load_error + Image :=
  if forallb completes (bin_initializers (img_binary img))
  then inr (set_state Initialized img)
  else inl (InitializerFailure (img_path img)).

Definition initialize_step : step := node_step initialize_image.

(** Modelled from the spec: Commit (section 4.4, step 6).  The new nodes
    join the registry in topological order, each with the one reference
    the transaction holds on it. *)
Definition commit (t : Transaction) : Process :=
  {| registry := registry (t_process t) ++ (set_state Registered <$> t_nodes t);
     refcounts := foldl (fun rc img => <[img_path img := 1%nat]> rc)
                        (refcounts (t_process t)) (t_nodes t);
     resident := resident (t_process t) |}.

(** [unmap(base, size)] *)
Fixpoint unmap (region : Z * Z) (res : list (Z * Z)) : list (Z * Z) :=
  match res with
  | [] => []
  | r :: rest => if decide (r = region) then rest else r :: unmap region rest
  end.

Definition is_mapped (img : Image) : bool :=
  match img_state img with Unmapped | Unwound => false | _ => true end.

Definition unwind_node (img : Image) (res : list (Z * Z)) : list (Z * Z) :=
  if is_mapped img then unmap (region_of img) res else res.

Definition release (rc : gmap string nat) (id : string) : gmap string nat :=
  alter Nat.pred id rc.

(** Modelled from the spec: Unwind (section 4.4).  The new nodes, in
    reverse of the order they were introduced, are unmapped and discarded,
    and the reference counts the transaction incremented are released. *)
Definition unwind (t : Transaction) : Process :=
  {| registry := registry (t_process t);
     refcounts := foldl release (refcounts (t_process t)) (t_held t);
     resident := foldr unwind_node (resident (t_process t)) (t_nodes t) |}.

Definition pipeline (root : string) : step :=
  and_then (collect root)
    (and_then map_step
       (and_then rebase_step (and_then bind_step initialize_step))).

(** Modelled from the spec: the load entry point with the must resolve
    now flag (sections 4.4 and 6), the code behind [dlopen(path,
    RTLD_NOW)] that the test calls.  The whole pipeline runs; any
    failure unwinds, success commits. *)
Definition load (root : string) (p : Process) : load_result * Process :=
  match pipeline root (begin p) with
  | (Some e, t) => (Failed e, unwind t)
  | (None, t) => (Loaded root, commit t)
  end.

(** An image binds when each of its [bind] entries lies in its segment
    and names, by an ordinal of the table, a symbol that one of its
    dependencies exports. *)
Definition exported_by (known : list Image) (deps : list string)
    (sym : string) : bool :=
  existsb (fun dep =>
             match find_image known dep with
             | Some d => bool_decide (is_Some (bin_exports (img_binary d) !! sym))
             | None => false
             end) deps.

Definition entry_binds (known : list Image) (bin : Binary) (seg : Segment)
    (d : slot_descriptor) : bool :=
  match kind d with
  | rebase _ => true
  | bind ordinal _ =>
      slot_in_segment (seg_size seg) (slot_offset d) &&
      match bin_external_symbols bin !! ordinal with
      | Some sym => exported_by known (bin_dependencies bin) sym
      | None => false
      end
  end.

Definition binds (known : list Image) (img : Image) : bool :=
  forallb (fun seg => forallb (entry_binds known (img_binary img) seg)
                              (seg_chain seg))
          (img_segments img).

End Orchestrator.

End Loader.

(** ** Vocabulary of the properties *)

(** The events a computation adds to the trace when run from [s]. *)
Definition events_of {A} (m : M A) (s : proc_state) : list event :=
  drop (length (st_trace s)) (st_trace (final_state (m s))).

(** The preferred base address of an image built with chained fixups
    ("all fixup chain based images have a base address of zero"). *)
Definition CHAINED_FIXUPS_BASE_ADDRESS : Z := 0.

Definition is_global_access (e : event) : bool :=
  match e with
  | E_global_write _ _ | E_global_read _ => true
  | _ => false
  end.

Definition is_rebaseDyld (e : event) : bool :=
  match e with E_rebaseDyld _ => true | _ => false end.

Definition is_mprotect (e : event) : bool :=
  match e with E_mprotect _ _ _ => true | _ => false end.

Definition is_fixup (e : event) : bool :=
  match e with E_fixupAllChainedFixups _ _ => true | _ => false end.

(** The call that downgrades the segment [info] of the image at [dyldMH]. *)
Definition downgrade_of (dyldMH : MachOLoaded) (info : SegmentInfo) : event :=
  E_mprotect (to_uintptr (mh_address dyldMH + vmAddr info)) (vmSize info)
             VM_PROT_READ.

(** The addresses of the segment [info] of the image at [dyldMH]. *)
Definition in_segment (dyldMH : MachOLoaded) (info : SegmentInfo) (a : Z) : bool :=
  in_range (to_uintptr (mh_address dyldMH + vmAddr info)) (vmSize info) a.

(** The address [rebaseDyld] hands to [mprotect] for the segment [info]. *)
Definition segment_address (dyldMH : MachOLoaded) (info : SegmentInfo) : Z :=
  to_uintptr (mh_address dyldMH + vmAddr info).

(** The kernel carries out the downgrade of the segment [info]. *)
Definition downgrade_succeeds (shift : nat) (max_protection : Z -> option Z)
    (dyldMH : MachOLoaded) (info : SegmentInfo) : bool :=
  mprotect_succeeds shift max_protection (segment_address dyldMH info)
    (vmSize info) VM_PROT_READ.

(** The address [a] lies in the pages of a read-only-data segment whose
    downgrade the kernel carries out. *)
Definition downgraded (shift : nat) (max_protection : Z -> option Z)
    (dyldMH : MachOLoaded) (info : SegmentInfo) (a : Z) : bool :=
  readOnlyData info &&
  (downgrade_succeeds shift max_protection dyldMH info &&
   in_range (segment_address dyldMH info)
     (round_page shift (segment_address dyldMH info + vmSize info)
      - segment_address dyldMH info) a).


(** "The syscall layer is initialized only after every read-only-data
    segment has been downgraded": each [mach_init] in the trace comes later
    than the downgrade of each read-only-data segment. *)
Definition syscall_layer_after_downgrades (dyldMH : MachOLoaded)
    (tr : list event) : Prop :=
  forall i, tr !! i = Some E_mach_init ->
  forall info, info ∈ segments dyldMH -> readOnlyData info = true ->
  exists j, (j < i)%nat /\ tr !! j = Some (downgrade_of dyldMH info).

(** "The self-relocation runs exactly once and no loader global is read or
    written before it": one [rebaseDyld] in the trace, and no access to a
    global at an earlier position. *)
Definition rebased_once_before_globals (tr : list event) : Prop :=
  length (filter is_rebaseDyld tr) = 1%nat /\
  forall i j e dyldMH,
    tr !! i = Some (E_rebaseDyld dyldMH) ->
    tr !! j = Some e -> is_global_access e = true -> (i < j)%nat.

(** As [rebased_once_before_globals], but for one access that may come
    before the self-relocation. *)
Definition rebased_once_before_globals_but (allowed : event) (tr : list event)
  : Prop :=
  length (filter is_rebaseDyld tr) = 1%nat /\
  forall i j e dyldMH,
    tr !! i = Some (E_rebaseDyld dyldMH) ->
    tr !! j = Some e -> is_global_access e = true ->
    (i < j)%nat \/ e = allowed.

(** The trace [rebaseDyld] leaves for the image [ma], given the diagnostics
    [diag] its fixups end with. *)
Definition rebaseDyld_events (ma : MachOAnalyzer) (diag : Diagnostics)
  : list event :=
  E_rebaseDyld (mh_address ma) :: E_assert (hasChainedFixups ma) ::
  (if hasChainedFixups ma then
     match chainStarts ma with
     | inl _ => []
     | inr _ => [E_fixupAllChainedFixups (dyldbootstrap.slide_of ma) []]
     end ++
     E_assertNoError (hasError diag) ::
     (if hasError diag then []
      else E_mach_init ::
           (downgrade_of ma <$> filter (fun info => readOnlyData info = true)
                                       (segments ma)))
   else []).

Arguments rebaseDyld_events : simpl never.

(** What a run of [rebaseDyld] that gets past its fixups logs before it
    initializes the mach layer. *)
Definition before_mach_init (ma : MachOAnalyzer) : list event :=
  [E_rebaseDyld (mh_address ma); E_assert true] ++
  match chainStarts ma with
  | inl _ => []
  | inr _ => [E_fixupAllChainedFixups (dyldbootstrap.slide_of ma) []]
  end ++ [E_assertNoError false].

(** What [start] logs once [rebaseDyld] has returned, up to the call of
    [dyld::_main]. *)
Definition after_rebaseDyld_start (appsMachHeader : Z) (argc : Z) (area : list Z)
  : list event :=
  match dyldbootstrap.skip_to_null area (Z.to_nat (argc + 1)) with
  | None => []
  | Some null => [E_guard_setup (S null); E_getSlide appsMachHeader]
  end.

(** What [start_sim] logs once [rebaseDyld] has returned, up to the call
    of [dyld::_main]. *)
Definition after_rebaseDyld_start_sim (apple : nat) (mainExecutableMH : Z)
    (sc sc_processInfo : Z) : list event :=
  [E_guard_setup apple; E_getProcessInfo sc;
   E_global_write gProcessInfo sc_processInfo; E_syncProcessInfo;
   E_getSlide mainExecutableMH].

(** The addresses of the slots the Rebase step writes in an image. *)
Definition rebase_slot_addresses (img : Loader.Image) : list Z :=
  seg ← Loader.img_segments img;
  (fun d => Loader.img_base img + Loader.seg_start seg + FixupChain.slot_offset d)
    <$> FixupChain.rebase_entries (Loader.seg_chain seg).


(** [t'] is [t] after some resolving: the registry and the resident
    regions as they were, reference counts raised on images that [t']
    holds and that releasing restores, and new nodes, none of them mapped
    and none of them a registered image. *)
Definition collected_from (t t' : Loader.Transaction) : Prop :=
  Loader.registry (Loader.t_process t') = Loader.registry (Loader.t_process t) /\
  Loader.resident (Loader.t_process t') = Loader.resident (Loader.t_process t) /\
  (exists held,
     Loader.t_held t' = held ++ Loader.t_held t /\
     foldl Loader.release (Loader.refcounts (Loader.t_process t')) held =
       Loader.refcounts (Loader.t_process t)) /\
  (exists added,
     Loader.t_nodes t' = Loader.t_nodes t ++ added /\
     Forall (fun n => ~ Loader.img_path n ∈ Loader.paths (Loader.registry (Loader.t_process t)) /\
                      Loader.img_state n = Loader.Unmapped) added).

(** Unwinding [t] gives back the process [p]: the registry of [p], its
    reference counts once the held ones are released, and its resident
    regions once the nodes are unmapped. *)
Definition restorable (p : Loader.Process) (t : Loader.Transaction) : Prop :=
  Loader.registry (Loader.t_process t) = Loader.registry p /\
  foldl Loader.release (Loader.refcounts (Loader.t_process t)) (Loader.t_held t)
    = Loader.refcounts p /\
  foldr Loader.unwind_node (Loader.resident (Loader.t_process t)) (Loader.t_nodes t)
    = Loader.resident p.

(** ** Concrete scenarios *)

Module Scenario.

Import FixupChain Loader.

(** A loader image at 0x1000: a text segment, a read-only-data segment
    with one rebase entry and a data segment with two. *)
Definition dyld_chain : fixup_chain :=
  [ {| slot_offset := 0; kind := rebase 64 |};
    {| slot_offset := 8; kind := rebase 128 |} ].

Definition dyld_segments : list SegmentInfo :=
  [ {| vmAddr := 0; vmSize := 256; readOnlyData := false |};
    {| vmAddr := 256; vmSize := 64; readOnlyData := true |};
    {| vmAddr := 512; vmSize := 32; readOnlyData := false |} ].

Definition dyld_image : MachOAnalyzer :=
  {| mh_address := 4096;
     hasChainedFixups := true;
     segments := dyld_segments;
     chainStarts :=
       inr [ {| segment_offset := 256; segment_size := 64;
                chain := [ {| slot_offset := 16; kind := rebase 32 |} ] |};
             {| segment_offset := 512; segment_size := 32;
                chain := dyld_chain |} ] |}.

(** The same image built without chained fixups. *)
Definition unchained_image : MachOAnalyzer :=
  {| mh_address := 4096;
     hasChainedFixups := false;
     segments := dyld_segments;
     chainStarts := inl "image does not use chained fixups" |}.

(** The same image with a bind entry in its chain. *)
Definition binding_image : MachOAnalyzer :=
  {| mh_address := 4096;
     hasChainedFixups := true;
     segments := dyld_segments;
     chainStarts :=
       inr [ {| segment_offset := 512; segment_size := 32;
                chain := [ {| slot_offset := 0; kind := rebase 64 |};
                           {| slot_offset := 8; kind := bind 0 0 |} ] |} ] |}.

(** The loader image at 0x10000 with every segment on a page boundary. *)
Definition aligned_segments : list SegmentInfo :=
  [ {| vmAddr := 0; vmSize := 4096; readOnlyData := false |};
    {| vmAddr := 4096; vmSize := 64; readOnlyData := true |};
    {| vmAddr := 8192; vmSize := 32; readOnlyData := false |} ].

Definition aligned_image : MachOAnalyzer :=
  {| mh_address := 65536;
     hasChainedFixups := true;
     segments := aligned_segments;
     chainStarts :=
       inr [ {| segment_offset := 4096; segment_size := 64;
                chain := [ {| slot_offset := 16; kind := rebase 32 |} ] |};
             {| segment_offset := 8192; segment_size := 32;
                chain := dyld_chain |} ] |}.

(** The process as the kernel hands it over: pages of 4096 bytes, of
    which the first 1024 are mapped, readable and writable; no global is
    set, nothing has happened. *)
Definition fresh : proc_state :=
  {| st_memory := ∅;
     st_protection := fun _ => Z.lor VM_PROT_READ VM_PROT_WRITE;
     st_page_shift := 12;
     st_max_protection :=
       fun page => if (0 <=? page) && (page <? 1024)
                   then Some (Z.lor VM_PROT_READ (Z.lor VM_PROT_WRITE VM_PROT_EXECUTE))
                   else None;
     st_gSyscallHelpers := 0;
     st_gProcessInfo := 0;
     st_trace := [] |}.

(** The kernel argument area of a process started as [prog -v] with one
    environment string and one apple string. *)
Definition argument_area : list Z := [7001; 7002; 0; 7101; 0; 7201; 0].

Definition no_slide (mh : Z) : Z := 0.

(** The dylib chain of the [dlopen-fail-cleanly] test: [liba] links
    [libb], which links [libc] and needs a symbol that the installed
    [libc] does not export. *)
Definition data_segment (c : fixup_chain) : Segment :=
  {| seg_start := 0; seg_size := 64; seg_class := Writable; seg_chain := c |}.

Definition libc : Binary :=
  {| bin_preferred_base := 0;
     bin_segments := [ data_segment [ {| slot_offset := 0; kind := rebase 16 |} ] ];
     bin_dependencies := [];
     bin_external_symbols := [];
     bin_exports := {[ "c_function" := 32 ]};
     bin_initializers := [] |}.

Definition libb : Binary :=
  {| bin_preferred_base := 0;
     bin_segments :=
       [ data_segment [ {| slot_offset := 0; kind := bind 0 0 |};
                        {| slot_offset := 8; kind := bind 1 0 |} ] ];
     bin_dependencies := ["libc.dylib"];
     bin_external_symbols := ["c_function"; "c_extra_function"];
     bin_exports := {[ "b_function" := 40 ]};
     bin_initializers := [InitCompletes] |}.

Definition liba : Binary :=
  {| bin_preferred_base := 0;
     bin_segments := [ data_segment [ {| slot_offset := 0; kind := bind 0 0 |} ] ];
     bin_dependencies := ["libb.dylib"];
     bin_external_symbols := ["b_function"];
     bin_exports := ∅;
     bin_initializers := [] |}.

Definition installed : gmap string Binary :=
  {[ "liba.dylib" := liba; "libb.dylib" := libb; "libc.dylib" := libc ]}.

Definition any_version (requester : option string) (bin : Binary) : bool := true.

(** A mapping primitive that places each binary above what is resident. *)
Definition map_above (res : list (Z * Z)) (path : string) (bin : Binary)
  : option Z :=
  Some (foldr (fun r acc => Z.max (r.1 + r.2) acc) 65536 res).

Definition main_program : Image :=
  {| img_path := "main.exe"; img_base := 4096; img_slide := 4096;
     img_binary := {| bin_preferred_base := 0; bin_segments := [];
                      bin_dependencies := []; bin_external_symbols := [];
                      bin_exports := ∅; bin_initializers := [] |};
     img_state := Registered; img_memory := ∅ |}.

Definition running : Process :=
  {| registry := [main_program];
     refcounts := {[ "main.exe" := 1%nat ]};
     resident := [(4096, 0)] |}.

(** A mapped image with one segment of three rebase entries. *)
Definition rebasing_image : Image :=
  {| img_path := "libr.dylib"; img_base := 8192; img_slide := 8192;
     img_binary :=
       {| bin_preferred_base := 0;
          bin_segments :=
            [ data_segment [ {| slot_offset := 0; kind := rebase 16 |};
                             {| slot_offset := 8; kind := bind 0 0 |};
                             {| slot_offset := 16; kind := rebase 24 |} ] ];
          bin_dependencies := []; bin_external_symbols := [];
          bin_exports := ∅; bin_initializers := [] |};
     img_state := Mapped; img_memory := ∅ |}.

End Scenario.


(** ** The test dlopen-fail-cleanly *)

Module DlopenFailCleanly.

(** How the test ends.  [FAIL] and [PASS] come from [test_support.h],
    which is not among the sources: each reports and ends the process.
    A NULL path handed to [strstr] ends it too, by a fault. *)
Inductive report : Type :=
| PASS (msg : string)
| FAIL (msg : string) (arg : option string)
| NULL_PATH.

(** [strstr(haystack, needle)]: where the needle first occurs, if it does. *)
Definition strstr (haystack needle : string) : option nat :=
  String.index 0 needle haystack.

Definition RTLD_NOW : Z := 2.

(** The conversion of a [uint32_t] to [int], as in
    [int count = _dyld_image_count()]. *)
Definition to_int (w : Z) : Z :=
  let m := w mod 2 ^ 32 in
  if m <? 2 ^ 31 then m else m - 2 ^ 32.

Section Test.

(** [RUN_DIR] is fixed when the test is built.  The three entry points
    of dyld the test calls act on the state of the process: [dlopen]
    returns a handle or NULL, [_dyld_get_image_name] a path or NULL. *)
Context {process handle : Type}.
Variable RUN_DIR : string.
Variable dlopen : string -> Z -> process -> option handle * process.
Variable _dyld_image_count : process -> nat.
Variable _dyld_get_image_name : process -> nat -> option string.

Definition liba_path : string := RUN_DIR +:+ "/liba.dylib".
Definition residue : string := RUN_DIR +:+ "/lib".

(** The loop over the loaded images, from index [i] with [remaining]
    indices to go: each path is logged, then searched for [residue]. *)
Fixpoint check_images (p : process) (remaining i : nat)
  : report * list (nat * option string) :=
  match remaining with
  | O => (PASS "Success", [])
  | S remaining' =>
      let path := _dyld_get_image_name p i in
      match path with
      | None => (NULL_PATH, [(i, path)])
      | Some name =>
          match strstr name residue with
          | Some _ =>
              (FAIL "Found unexpected loaded image: %s" (Some name), [(i, path)])
          | None =>
              let '(r, log) := check_images p remaining' (S i) in
              (r, (i, path) :: log)
          end
      end
  end.

(** [main]: its report, what it logged, and the process it leaves. *)
Definition main (p : process)
  : report * list (nat * option string) * process :=
  (* dlopen dylib chain that should fail *)
  let '(handle, p') := dlopen liba_path RTLD_NOW p in
  match handle with
  | Some _ =>
      (FAIL "dlopen(liba.dylib) expected to fail but did not" None, [], p')
  | None =>
      (* iterate loaded images and make sure no residue from failed dlopen *)
      let count := to_int (Z.of_nat (_dyld_image_count p')) in
      let '(r, log) := check_images p' (Z.to_nat count) 0 in
      (r, log, p')
  end.

End Test.

(** The test against the load engine: [dlopen] is [Loader.load], the
    image count and names are those of the registry. *)
Section AgainstLoader.

Variable binaries : gmap string Loader.Binary.
Variable compatible : option string -> Loader.Binary -> bool.
Variable map_image : list (Z * Z) -> string -> Loader.Binary -> option Z.

Definition loader_dlopen (path : string) (mode : Z) (p : Loader.Process)
  : option string * Loader.Process :=
  match Loader.load binaries compatible map_image path p with
  | (Loader.Loaded handle, p') => (Some handle, p')
  | (Loader.Failed _, p') => (None, p')
  end.

Definition loader_main (RUN_DIR : string) (p : Loader.Process)
  : report * list (nat * option string) * Loader.Process :=
  main RUN_DIR loader_dlopen Loader.image_count Loader.image_name_at p.

End AgainstLoader.

End DlopenFailCleanly.

(** ** Vocabulary of further properties *)

Definition is_mach_init (e : event) : bool :=
  match e with E_mach_init => true | _ => false end.

Definition is_guard_setup (e : event) : bool :=
  match e with E_guard_setup _ => true | _ => false end.

(** The events [rebaseDyld] itself can log. *)
Definition logged_by_rebaseDyld (e : event) : bool :=
  match e with
  | E_rebaseDyld _ | E_assert _ | E_fixupAllChainedFixups _ _
  | E_assertNoError _ | E_mach_init | E_mprotect _ _ _ => true
  | _ => false
  end.

(** The addresses of the slots of the chains [starts] of the image at
    [ma], in the order the decoder visits them. *)
Definition chain_slot_addresses (ma : MachOAnalyzer)
    (starts : dyld_chained_starts_in_image) : list Z :=
  sc ← starts;
  (fun d => mh_address ma + FixupChain.segment_offset sc + FixupChain.slot_offset d)
    <$> FixupChain.chain sc.

(** Every entry of the chains [starts] is a rebase within its segment. *)
Definition rebases_in_bounds (starts : dyld_chained_starts_in_image) : Prop :=
  forall sc d, sc ∈ starts -> d ∈ FixupChain.chain sc ->
    FixupChain.is_rebase d = true /\
    FixupChain.slot_in_segment (FixupChain.segment_size sc)
                               (FixupChain.slot_offset d) = true.

(** No image name of the process holds [needle]. *)
Definition no_image_named (needle : string) (p : Loader.Process) : Prop :=
  forall i name, Loader.image_name_at p i = Some name ->
                 DlopenFailCleanly.strstr name needle = None.

(** The [n] images from index [i] on have names, none of which holds
    [needle]. *)
Definition clean_names {process : Type}
    (image_name : process -> nat -> option string) (needle : string)
    (p : process) (i n : nat) : Prop :=
  forall k, (k < n)%nat ->
    exists name, image_name p (i + k)%nat = Some name /\
                 DlopenFailCleanly.strstr name needle = None.

(** The log of the [n] indices from [i] on, each with its path. *)
Definition logged_names {process : Type}
    (image_name : process -> nat -> option string) (p : process) (i n : nat)
  : list (nat * option string) :=
  (fun k => (k, image_name p k)) <$> List.seq i n.

(** ** Further scenarios *)

Module MoreScenarios.

Import FixupChain Loader Scenario.

(** The dylibs of the test, installed under [/run]. *)
Definition run_libc : Binary := libc.

Definition run_libb : Binary :=
  {| bin_preferred_base := 0;
     bin_segments := bin_segments libb;
     bin_dependencies := ["/run/libc.dylib"];
     bin_external_symbols := bin_external_symbols libb;
     bin_exports := bin_exports libb;
     bin_initializers := bin_initializers libb |}.

Definition run_liba : Binary :=
  {| bin_preferred_base := 0;
     bin_segments := bin_segments liba;
     bin_dependencies := ["/run/libb.dylib"];
     bin_external_symbols := bin_external_symbols liba;
     bin_exports := bin_exports liba;
     bin_initializers := bin_initializers liba |}.

Definition run_installed : gmap string Binary :=
  {[ "/run/liba.dylib" := run_liba; "/run/libb.dylib" := run_libb;
     "/run/libc.dylib" := run_libc ]}.

(** A process that already runs an image from [/run/lib...]. *)
Definition tainted : Process :=
  {| registry := [main_program;
                  {| img_path := "/run/libz.dylib"; img_base := 32768;
                     img_slide := 32768; img_binary := libc;
                     img_state := Registered; img_memory := ∅ |}];
     refcounts := {[ "main.exe" := 1%nat; "/run/libz.dylib" := 1%nat ]};
     resident := [(32768, 64); (4096, 0)] |}.

End MoreScenarios.

(** * Facts about the bootstrap *)

Lemma to_uintptr_to_long (p : Z) : is_pointer p -> to_uintptr (to_long p) = p.
Proof.
  unfold is_pointer, to_uintptr, to_long. intros Hp.
  rewrite (Z.mod_small p) by lia.
  destruct (p <? UINTPTR_MODULUS / 2).
  - apply Z.mod_small; lia.
  - replace (p - UINTPTR_MODULUS) with (p + (-1) * UINTPTR_MODULUS) by lia.
    rewrite Z.mod_add by (unfold UINTPTR_MODULUS, UINTPTR_BITS; lia).
    apply Z.mod_small; lia.
Qed.

Lemma not_writable_read_only : writable VM_PROT_READ = false.
Proof. reflexivity. Qed.




(** Closes a conjunction of facts about one concrete event. *)
Ltac event_facts := repeat split; first [discriminate | reflexivity].

(** Goes through the members of an explicit list of events. *)
Ltac each_event He :=
  repeat (apply elem_of_cons in He as [->|He]; [event_facts|]);
  apply elem_of_nil in He; contradiction.

(** Where a position of [pre ++ x :: post] falls. *)
Lemma lookup_around {A} (pre post : list A) (x e : A) (j : nat) :
  (pre ++ x :: post) !! j = Some e ->
  ((j < length pre)%nat /\ e ∈ pre) \/
  (j = length pre /\ e = x) \/
  ((length pre < j)%nat /\ e ∈ post).
Proof.
  intros H. destruct (Nat.lt_trichotomy j (length pre)) as [Hlt|[Heq|Hgt]].
  - left. split; [assumption|].
    rewrite lookup_app_l in H by assumption.
    eapply list_elem_of_lookup_2; eassumption.
  - right; left. split; [assumption|]. subst j.
    rewrite lookup_app_r in H by lia.
    rewrite Nat.sub_diag in H. simpl in H. congruence.
  - right; right. split; [assumption|].
    rewrite lookup_app_r in H by lia.
    destruct (j - length pre)%nat as [|k] eqn:Hk; [lia|].
    simpl in H. eapply list_elem_of_lookup_2; eassumption.
Qed.

Lemma downgrades_are_mprotects (ma : MachOLoaded) (segs : list SegmentInfo) (e : event) :
  e ∈ downgrade_of ma <$> segs ->
  is_mprotect e = true /\ is_fixup e = false /\ is_rebaseDyld e = false /\
  is_global_access e = false /\ e <> E_mach_init.
Proof.
  intros He. apply list_elem_of_fmap in He as (info & -> & _).
  event_facts.
Qed.

Lemma rebaseDyld_events_complete (ma : MachOAnalyzer) (diag : Diagnostics) :
  hasChainedFixups ma = true -> hasError diag = false ->
  rebaseDyld_events ma diag =
    before_mach_init ma ++ E_mach_init ::
    (downgrade_of ma <$> filter (fun info => readOnlyData info = true) (segments ma)).
Proof.
  intros Hc He. unfold rebaseDyld_events, before_mach_init.
  rewrite Hc, He. simpl. destruct (chainStarts ma); reflexivity.
Qed.

Lemma rebaseDyld_events_incomplete (ma : MachOAnalyzer) (diag : Diagnostics) :
  hasChainedFixups ma && negb (hasError diag) = false ->
  forall e, e ∈ rebaseDyld_events ma diag ->
  e <> E_mach_init /\ is_mprotect e = false.
Proof.
  intros Hc e. unfold rebaseDyld_events.
  destruct (hasChainedFixups ma); simpl in *.
  - apply negb_false_iff in Hc. rewrite Hc.
    destruct (chainStarts ma); simpl; intros He; each_event He.
  - intros He. each_event He.
Qed.

Lemma before_mach_init_events (ma : MachOAnalyzer) (e : event) :
  e ∈ before_mach_init ma ->
  e <> E_mach_init /\ is_mprotect e = false /\ is_global_access e = false.
Proof.
  unfold before_mach_init. destruct (chainStarts ma); simpl; intros He;
    each_event He.
Qed.

Section BootstrapFacts.

Variable decoder :
  MachOAnalyzer -> Diagnostics -> dyld_chained_starts_in_image ->
  Z -> list Z -> gmap Z Z -> Diagnostics * gmap Z Z.
Variable getSlide : Z -> Z.
Variable dyld_main : main_args -> M Z.

Local Abbreviation rebaseDyld := (dyldbootstrap.rebaseDyld decoder).
Local Abbreviation fixups_outcome := (dyldbootstrap.fixups_outcome decoder).
Local Abbreviation mark_read_only := dyldbootstrap.mark_read_only.

(** The protection loop returns, touches neither memory nor globals,
    logs one downgrade per read-only-data segment and leaves read-only
    exactly the pages of those segments whose downgrade the kernel
    carries out. *)
Lemma forEachSegment_mark_read_only (dyldMH : MachOLoaded)
    (segs : list SegmentInfo) (s : proc_state) :
  exists s',
    forEachSegment segs (mark_read_only dyldMH) s = Returned tt s' /\
    st_memory s' = st_memory s /\
    st_gSyscallHelpers s' = st_gSyscallHelpers s /\
    st_gProcessInfo s' = st_gProcessInfo s /\
    st_trace s' = st_trace s ++
      (downgrade_of dyldMH <$> filter (fun info => readOnlyData info = true) segs) /\
    forall a, st_protection s' a =
              if existsb (fun info => downgraded (st_page_shift s)
                                        (st_max_protection s) dyldMH info a) segs
              then VM_PROT_READ else st_protection s a.
Proof.
  revert s. induction segs as [|info rest IH]; intros s.
  - exists s. simpl. rewrite app_nil_r. repeat split; reflexivity.
  - simpl forEachSegment. unfold mbind, M_bind, seq.
    unfold mark_read_only at 1.
    destruct (readOnlyData info) eqn:Hro.
    + unfold mbind, M_bind, seq, mprotect, ret. simpl.
      match goal with |- context [forEachSegment rest _ ?s1] =>
        destruct (IH s1) as (s' & Hrun & Hmem & Hsc & Hpi & Htr & Hprot) end.
      exists s'. rewrite Hrun. simpl in *.
      repeat split; try assumption.
      * rewrite Htr, filter_cons_True by assumption.
        rewrite fmap_cons, <- app_assoc. reflexivity.
      * intros a. rewrite Hprot. cbn [existsb].
        assert (Hd : downgraded (st_page_shift s) (st_max_protection s) dyldMH
                       info a
                     = mprotect_succeeds (st_page_shift s) (st_max_protection s)
                         (to_uintptr (mh_address dyldMH + vmAddr info))
                         (vmSize info) VM_PROT_READ &&
                       in_range (to_uintptr (mh_address dyldMH + vmAddr info))
                         (round_page (st_page_shift s)
                            (to_uintptr (mh_address dyldMH + vmAddr info)
                             + vmSize info)
                          - to_uintptr (mh_address dyldMH + vmAddr info)) a).
        { unfold downgraded. rewrite Hro. reflexivity. }
        rewrite Hd.
        destruct (mprotect_succeeds _ _ _ _ _ && in_range _ _ a); simpl.
        -- destruct (existsb _ rest); reflexivity.
        -- reflexivity.
    + unfold ret.
      destruct (IH s) as (s' & Hrun & Hmem & Hsc & Hpi & Htr & Hprot).
      exists s'. rewrite Hrun.
      repeat split; try assumption.
      * rewrite Htr, filter_cons_False by (rewrite Hro; discriminate).
        reflexivity.
      * intros a. rewrite Hprot. cbn [existsb].
        assert (Hd : downgraded (st_page_shift s) (st_max_protection s) dyldMH
                       info a = false).
        { unfold downgraded. rewrite Hro. reflexivity. }
        rewrite Hd. reflexivity.
Qed.

(** What a run of [rebaseDyld] amounts to: its trace, whether it
    returns, and the state it leaves. *)
Lemma rebaseDyld_run (ma : MachOLoaded) (s : proc_state) :
  let out := fixups_outcome ma (st_memory s) in
  let completes := hasChainedFixups ma && negb (hasError out.1) in
  let s' := final_state (rebaseDyld ma s) in
  st_trace s' = st_trace s ++ rebaseDyld_events ma out.1 /\
  returned (rebaseDyld ma s) = completes /\
  st_memory s' = (if hasChainedFixups ma then out.2 else st_memory s) /\
  st_gSyscallHelpers s' = st_gSyscallHelpers s /\
  st_gProcessInfo s' = st_gProcessInfo s /\
  forall a, st_protection s' a =
            if completes &&
               existsb (fun info => downgraded (st_page_shift s)
                                     (st_max_protection s) ma info a)
                       (segments ma)
            then VM_PROT_READ else st_protection s a.
Proof.
  unfold dyldbootstrap.rebaseDyld, dyldbootstrap.fixups_outcome, rebaseDyld_events.
  unfold c_assert, dyldbootstrap.withChainStarts, assertNoError, mach_init.
  unfold mbind, M_bind, seq, emit, ret, abort, get_memory, set_memory. simpl.
  destruct (hasChainedFixups ma); simpl.
  2:{ rewrite <- app_assoc. repeat split; reflexivity. }
  destruct (chainStarts ma) as [err|starts]; simpl.
  { repeat rewrite <- app_assoc. repeat split; reflexivity. }
  destruct (decoder ma None starts (dyldbootstrap.slide_of ma) [] (st_memory s))
    as [diag mem'] eqn:Hdec; simpl.
  destruct (hasError diag) eqn:Herr; simpl.
  { repeat rewrite <- app_assoc. repeat split; reflexivity. }
  match goal with |- context [forEachSegment _ _ ?s1] =>
    destruct (forEachSegment_mark_read_only ma (segments ma) s1)
      as (s' & Hrun & Hmem & Hsc & Hpi & Htr & Hprot) end.
  rewrite Hrun. simpl in *.
  repeat split; try assumption.
  rewrite Htr. repeat rewrite <- app_assoc. reflexivity.
Qed.

Lemma events_of_rebaseDyld (ma : MachOLoaded) (s : proc_state) :
  events_of (rebaseDyld ma) s =
  rebaseDyld_events ma (fixups_outcome ma (st_memory s)).1.
Proof.
  unfold events_of.
  destruct (rebaseDyld_run ma s) as (Htr & _). cbv zeta in Htr.
  rewrite Htr. apply drop_app_length.
Qed.

(** C9: [rebaseDyld] requires an image with chained fixups.  On an image
    without them the assertion fails: the run aborts right after it,
    having applied no fixup (no call of the decoder, memory and
    protections as they were). *)
Theorem rebaseDyld_asserts_chained_fixups (ma : MachOLoaded) (s : proc_state) :
  hasChainedFixups ma = false ->
  returned (rebaseDyld ma s) = false /\
  events_of (rebaseDyld ma) s = [E_rebaseDyld (mh_address ma); E_assert false] /\
  st_memory (final_state (rebaseDyld ma s)) = st_memory s /\
  forall a, st_protection (final_state (rebaseDyld ma s)) a = st_protection s a.
Proof.
  intros Hc.
  destruct (rebaseDyld_run ma s) as (_ & Hret & Hmem & _ & _ & Hprot).
  cbv zeta in *. rewrite Hc in *. simpl in *.
  rewrite events_of_rebaseDyld. unfold rebaseDyld_events. rewrite Hc.
  repeat split; assumption.
Qed.

(** C7: the slide [rebaseDyld] rebases the loader with is its load
    address less its preferred base, which is zero: the decoder is
    called once, with the load address as slide, and the memory the
    bootstrap leaves is what the decoder makes of it with that slide. *)
Theorem rebaseDyld_slide_is_load_address (ma : MachOLoaded) (s : proc_state)
    (starts : dyld_chained_starts_in_image) :
  is_pointer (mh_address ma) ->
  hasChainedFixups ma = true ->
  chainStarts ma = inr starts ->
  let slide := mh_address ma - CHAINED_FIXUPS_BASE_ADDRESS in
  slide = mh_address ma /\
  filter is_fixup (events_of (rebaseDyld ma) s) = [E_fixupAllChainedFixups slide []] /\
  st_memory (final_state (rebaseDyld ma s)) =
    (decoder ma None starts slide [] (st_memory s)).2.
Proof.
  intros Hp Hc Hs slide.
  assert (Hslide : dyldbootstrap.slide_of ma = slide).
  { unfold dyldbootstrap.slide_of, slide, CHAINED_FIXUPS_BASE_ADDRESS.
    rewrite to_uintptr_to_long by assumption. lia. }
  split; [unfold slide, CHAINED_FIXUPS_BASE_ADDRESS; lia|].
  destruct (rebaseDyld_run ma s) as (_ & _ & Hmem & _). cbv zeta in Hmem.
  rewrite Hc in Hmem. unfold dyldbootstrap.fixups_outcome in Hmem.
  rewrite Hs, Hslide in Hmem. split; [|assumption].
  rewrite events_of_rebaseDyld. unfold rebaseDyld_events.
  rewrite Hc, Hs, Hslide. simpl.
  set (diag := (fixups_outcome ma (st_memory s)).1).
  destruct (hasError diag); [reflexivity|].
  change (filter is_fixup
            (E_fixupAllChainedFixups slide [] :: [E_assertNoError false; E_mach_init] ++
             (downgrade_of ma <$> filter (fun info => readOnlyData info = true) (segments ma)))
          = [E_fixupAllChainedFixups slide []]).
  rewrite filter_cons_True by exact I.
  rewrite filter_app. f_equal.
  induction (filter (fun info => readOnlyData info = true) (segments ma)); [reflexivity|].
  assumption.
Qed.

(** C2 (amended): [rebaseDyld] initializes the mach/syscall layer once
    the fixups are applied and found free of error, and before it
    downgrades any read-only-data segment: a run that returns does
    initialize it, the check of the diagnostics and every call of the
    decoder come earlier in the trace, and every downgrade, that of each
    read-only-data segment included, comes later. *)
Theorem mach_init_between_fixups_and_downgrades (ma : MachOLoaded) (s : proc_state) :
  let tr := events_of (rebaseDyld ma) s in
  (returned (rebaseDyld ma s) = true -> E_mach_init ∈ tr) /\
  forall i, tr !! i = Some E_mach_init ->
    (exists j, (j < i)%nat /\ tr !! j = Some (E_assertNoError false)) /\
    (forall j e, tr !! j = Some e -> is_fixup e = true -> (j < i)%nat) /\
    (forall j e, tr !! j = Some e -> is_mprotect e = true -> (i < j)%nat) /\
    (forall info, info ∈ segments ma -> readOnlyData info = true ->
       exists j, (i < j)%nat /\ tr !! j = Some (downgrade_of ma info)).
Proof.
  cbv zeta. rewrite events_of_rebaseDyld.
  destruct (rebaseDyld_run ma s) as (_ & Hret & _). cbv zeta in Hret.
  set (diag := (fixups_outcome ma (st_memory s)).1) in *.
  destruct (hasChainedFixups ma && negb (hasError diag)) eqn:Hok.
  - apply andb_true_iff in Hok as [Hc He]. apply negb_true_iff in He.
    rewrite (rebaseDyld_events_complete ma diag Hc He).
    set (pre := before_mach_init ma).
    set (post := downgrade_of ma <$> _).
    split.
    { intros _. apply elem_of_app. right. apply elem_of_cons. left. reflexivity. }
    intros i Hi.
    assert (i = length pre) as ->.
    { apply lookup_around in Hi as [[_ Hin]|[[Hi _]|[_ Hin]]].
      - apply before_mach_init_events in Hin as [Hne _]. congruence.
      - assumption.
      - apply downgrades_are_mprotects in Hin as (_ & _ & _ & _ & Hne). congruence. }
    repeat split.
    + exists (length pre - 1)%nat.
      unfold pre, before_mach_init.
      destruct (chainStarts ma); simpl; split; first [lia | reflexivity].
    + intros j e Hj Hfix.
      apply lookup_around in Hj as [[Hlt _]|[[_ ->]|[_ Hin]]].
      * assumption.
      * discriminate.
      * apply downgrades_are_mprotects in Hin as (_ & Hnf & _). congruence.
    + intros j e Hj Hmp.
      apply lookup_around in Hj as [[_ Hin]|[[_ ->]|[Hgt _]]].
      * apply before_mach_init_events in Hin as (_ & Hnm & _). congruence.
      * discriminate.
      * assumption.
    + intros info Hin Hro.
      assert (Hd : downgrade_of ma info ∈ post).
      { apply list_elem_of_fmap_2. apply list_elem_of_filter. split; assumption. }
      apply list_elem_of_lookup in Hd as [k Hk].
      exists (length pre + S k)%nat. split; [lia|].
      rewrite lookup_app_r by lia.
      replace (length pre + S k - length pre)%nat with (S k) by lia.
      exact Hk.
  - rewrite Hret. split; [discriminate|].
    intros i Hi. apply list_elem_of_lookup_2 in Hi.
    apply (rebaseDyld_events_incomplete ma diag Hok) in Hi as [Hne _].
    congruence.
Qed.

(** A failure of the fixups ends [rebaseDyld] at its check of the
    diagnostics. *)
Lemma rebaseDyld_fixup_failure (ma : MachOLoaded) (s : proc_state) :
  hasError (fixups_outcome ma (st_memory s)).1 = true ->
  returned (rebaseDyld ma s) = false /\
  (forall e, e ∈ events_of (rebaseDyld ma) s ->
             e <> E_mach_init /\ is_mprotect e = false) /\
  (hasChainedFixups ma = true ->
   last (events_of (rebaseDyld ma) s) = Some (E_assertNoError true)) /\
  forall a, st_protection (final_state (rebaseDyld ma s)) a = st_protection s a.
Proof.
  intros Herr.
  destruct (rebaseDyld_run ma s) as (_ & Hret & _ & _ & _ & Hprot).
  cbv zeta in *. rewrite Herr in *.
  rewrite andb_false_r in *. simpl in Hprot.
  rewrite events_of_rebaseDyld.
  split; [assumption|]. split; [|split; [|assumption]].
  - intros e He. apply (rebaseDyld_events_incomplete ma _) in He; [exact He|].
    rewrite Herr. apply andb_false_r.
  - intros Hc. unfold rebaseDyld_events. rewrite Hc, Herr.
    destruct (chainStarts ma); reflexivity.
Qed.

(** Every call of the decoder that [rebaseDyld] makes passes the empty
    table of bind targets. *)
Lemma rebaseDyld_binds_nothing (ma : MachOLoaded) (s : proc_state)
    (slide : Z) (bindTargets : list Z) :
  E_fixupAllChainedFixups slide bindTargets ∈ events_of (rebaseDyld ma) s ->
  bindTargets = [].
Proof.
  rewrite events_of_rebaseDyld. unfold rebaseDyld_events.
  set (diag := (fixups_outcome ma (st_memory s)).1).
  intros He.
  apply elem_of_cons in He as [He|He]; [discriminate|].
  apply elem_of_cons in He as [He|He]; [discriminate|].
  destruct (hasChainedFixups ma); [|apply elem_of_nil in He; contradiction].
  apply elem_of_app in He as [He|He].
  - destruct (chainStarts ma); [apply elem_of_nil in He; contradiction|].
    apply list_elem_of_singleton in He. congruence.
  - apply elem_of_cons in He as [He|He]; [discriminate|].
    destruct (hasError diag); [apply elem_of_nil in He; contradiction|].
    apply elem_of_cons in He as [He|He]; [discriminate|].
    apply downgrades_are_mprotects in He as (_ & Hnf & _). discriminate.
Qed.

Local Abbreviation start_bootstrap :=
  (dyldbootstrap.start_bootstrap decoder getSlide).
Local Abbreviation start_sim_bootstrap :=
  (dyldbootstrap.start_sim_bootstrap decoder getSlide).

(** [start] up to the call of [dyld::_main]: its trace and the
    protections it leaves. *)
Lemma start_bootstrap_run (appsMachHeader argc : Z) (area : list Z)
    (ma : MachOLoaded) (startGlue : Z) (s : proc_state) :
  let diag := (fixups_outcome ma (st_memory s)).1 in
  let completes := hasChainedFixups ma && negb (hasError diag) in
  let o := start_bootstrap appsMachHeader argc area ma startGlue s in
  events_of (start_bootstrap appsMachHeader argc area ma startGlue) s =
    E_kdebug_trace_dyld_marker :: rebaseDyld_events ma diag ++
    (if completes then after_rebaseDyld_start appsMachHeader argc area else []) /\
  (returned o = true -> completes = true) /\
  forall a, st_protection (final_state o) a =
            if completes &&
               existsb (fun info => downgraded (st_page_shift s)
                                     (st_max_protection s) ma info a)
                       (segments ma)
            then VM_PROT_READ else st_protection s a.
Proof.
  cbv zeta. unfold events_of, after_rebaseDyld_start.
  cbv beta iota delta [dyldbootstrap.start_bootstrap mbind M_bind seq emit].
  match goal with |- context [dyldbootstrap.rebaseDyld _ _ ?st] => set (s1 := st) end.
  destruct (rebaseDyld_run ma s1) as (Htr & Hret & _ & _ & _ & Hprot).
  cbv zeta in *. change (st_memory s1) with (st_memory s) in *.
  change (st_trace s1) with (st_trace s ++ [E_kdebug_trace_dyld_marker]) in Htr.
  change (st_protection s1) with (st_protection s) in Hprot.
  set (diag := (fixups_outcome ma (st_memory s)).1) in *.
  destruct (rebaseDyld ma s1) as [[] s2|s2]; simpl in Htr, Hret, Hprot.
  - rewrite <- Hret in Hprot |- *. simpl in Hprot |- *.
    destruct (dyldbootstrap.skip_to_null area (Z.to_nat (argc + 1))) as [null|];
      unfold emit, ret, abort; simpl; rewrite Htr;
      repeat rewrite <- app_assoc; simpl; rewrite ?app_nil_r;
      (split; [apply drop_app_length|]); (split; [reflexivity|]); exact Hprot.
  - rewrite <- Hret in Hprot |- *. simpl in Hprot |- *. rewrite Htr, app_nil_r.
    repeat rewrite <- app_assoc; simpl.
    (split; [apply drop_app_length|]); (split; [discriminate|]); exact Hprot.
Qed.

(** [start] is its bootstrap followed by [dyld::_main], entered in the
    state the bootstrap leaves; so is [start_sim]. *)
Lemma start_hands_over (appsMachHeader argc : Z) (area : list Z)
    (ma : MachOLoaded) (startGlue : Z) (s : proc_state) :
  dyldbootstrap.start decoder getSlide dyld_main appsMachHeader argc area ma
    startGlue s =
  match start_bootstrap appsMachHeader argc area ma startGlue s with
  | Returned args s' => dyld_main args s'
  | Aborted s' => Aborted s'
  end.
Proof. reflexivity. Qed.

Lemma start_sim_hands_over (argc : Z) (argv envp apple : nat)
    (mainExecutableMH : Z) (ma : MachOLoaded) (dyldSlide sc sc_processInfo : Z)
    (startGlue : Z) (s : proc_state) :
  dyldbootstrap.start_sim decoder getSlide dyld_main argc argv envp apple
    mainExecutableMH ma dyldSlide sc sc_processInfo startGlue s =
  match start_sim_bootstrap argc argv envp apple mainExecutableMH ma dyldSlide
          sc sc_processInfo startGlue s with
  | Returned args s' => dyld_main args s'
  | Aborted s' => Aborted s'
  end.
Proof. reflexivity. Qed.

(** [start_sim] up to the call of [dyld::_main]. *)
Lemma start_sim_bootstrap_run (argc : Z) (argv envp apple : nat)
    (mainExecutableMH : Z) (ma : MachOLoaded) (dyldSlide sc sc_processInfo : Z)
    (startGlue : Z) (s : proc_state) :
  let diag := (fixups_outcome ma (st_memory s)).1 in
  let completes := hasChainedFixups ma && negb (hasError diag) in
  let o := start_sim_bootstrap argc argv envp apple mainExecutableMH ma
             dyldSlide sc sc_processInfo startGlue s in
  events_of (start_sim_bootstrap argc argv envp apple mainExecutableMH ma
               dyldSlide sc sc_processInfo startGlue) s =
    E_global_write gSyscallHelpers sc :: rebaseDyld_events ma diag ++
    (if completes
     then after_rebaseDyld_start_sim apple mainExecutableMH sc sc_processInfo
     else []) /\
  returned o = completes /\
  st_gSyscallHelpers (final_state o) = sc /\
  forall a, st_protection (final_state o) a =
            if completes &&
               existsb (fun info => downgraded (st_page_shift s)
                                     (st_max_protection s) ma info a)
                       (segments ma)
            then VM_PROT_READ else st_protection s a.
Proof.
  cbv zeta. unfold events_of, after_rebaseDyld_start_sim.
  cbv beta iota delta [dyldbootstrap.start_sim_bootstrap mbind M_bind seq
                         emit write_global].
  match goal with |- context [dyldbootstrap.rebaseDyld _ _ ?st] => set (s1 := st) end.
  destruct (rebaseDyld_run ma s1) as (Htr & Hret & _ & Hsc & _ & Hprot).
  cbv zeta in *. change (st_memory s1) with (st_memory s) in *.
  change (st_trace s1) with (st_trace s ++ [E_global_write gSyscallHelpers sc]) in Htr.
  change (st_protection s1) with (st_protection s) in Hprot.
  change (st_gSyscallHelpers s1) with sc in Hsc.
  set (diag := (fixups_outcome ma (st_memory s)).1) in *.
  destruct (rebaseDyld ma s1) as [[] s2|s2]; simpl in Htr, Hret, Hprot, Hsc.
  - rewrite <- Hret in Hprot |- *. unfold emit, write_global, ret.
    simpl in Hprot |- *. rewrite Htr.
    repeat rewrite <- app_assoc; simpl.
    (split; [apply drop_app_length|]); repeat (split; [reflexivity || assumption|]).
    exact Hprot.
  - rewrite <- Hret in Hprot |- *. simpl in Hprot |- *. rewrite Htr, app_nil_r.
    repeat rewrite <- app_assoc; simpl.
    (split; [apply drop_app_length|]); repeat (split; [reflexivity || assumption|]).
    exact Hprot.
Qed.

(** The trace of [rebaseDyld] opens with its own entry; nothing after
    is another entry or an access to a global. *)
Lemma rebaseDyld_events_body (ma : MachOAnalyzer) (diag : Diagnostics) :
  exists body,
    rebaseDyld_events ma diag = E_rebaseDyld (mh_address ma) :: body /\
    forall e, e ∈ body -> is_rebaseDyld e = false /\ is_global_access e = false.
Proof.
  unfold rebaseDyld_events. eexists. split; [reflexivity|].
  intros e He.
  apply elem_of_cons in He as [->|He]; [event_facts|].
  destruct (hasChainedFixups ma); [|apply elem_of_nil in He; contradiction].
  apply elem_of_app in He as [He|He].
  - destruct (chainStarts ma); each_event He.
  - apply elem_of_cons in He as [->|He]; [event_facts|].
    destruct (hasError diag); [apply elem_of_nil in He; contradiction|].
    apply elem_of_cons in He as [->|He]; [event_facts|].
    apply downgrades_are_mprotects in He as (_ & _ & Hr & Hg & _).
    split; assumption.
Qed.

Lemma filter_none {A} (P : A -> Prop) `{!forall x, Decision (P x)} (l : list A) :
  (forall x, x ∈ l -> ~ P x) -> filter P l = [].
Proof.
  induction l as [|x l IH]; intros Hnone; [reflexivity|].
  rewrite filter_cons_False by (apply Hnone; left).
  apply IH. intros y Hy. apply Hnone. right. assumption.
Qed.

(** A trace with one entry of [rebaseDyld], after [pre]: the entry is
    counted once and sits right after [pre]. *)
Lemma one_rebaseDyld (pre post : list event) (dyldMH : Z) :
  (forall e, e ∈ pre -> is_rebaseDyld e = false) ->
  (forall e, e ∈ post -> is_rebaseDyld e = false) ->
  length (filter is_rebaseDyld (pre ++ E_rebaseDyld dyldMH :: post)) = 1%nat /\
  forall i mh, (pre ++ E_rebaseDyld dyldMH :: post) !! i = Some (E_rebaseDyld mh) ->
               i = length pre.
Proof.
  intros Hpre Hpost. split.
  - rewrite filter_app, filter_cons_True by exact I.
    rewrite (filter_none _ pre), (filter_none _ post); [reflexivity| |].
    + intros e He Hr. apply Hpost in He.
      destruct (is_rebaseDyld e); [discriminate|exact Hr].
    + intros e He Hr. apply Hpre in He.
      destruct (is_rebaseDyld e); [discriminate|exact Hr].
  - intros i mh Hi.
    apply lookup_around in Hi as [[_ Hin]|[[Hi _]|[_ Hin]]].
    + apply Hpre in Hin. discriminate.
    + assumption.
    + apply Hpost in Hin. discriminate.
Qed.

(** C3 (amended): on both entry paths [rebaseDyld] runs exactly once.
    On the path of [start] no loader global is read or written before
    it; on the path of [start_sim] no loader global is read before it,
    and the one written before it is [gSyscallHelpers]. *)
Theorem bootstrap_rebases_once (appsMachHeader argc : Z) (area : list Z)
    (ma : MachOLoaded) (startGlue : Z) (s : proc_state)
    (argc' : Z) (argv envp apple : nat) (mainExecutableMH : Z)
    (ma' : MachOLoaded) (dyldSlide sc sc_processInfo startGlue' : Z)
    (s' : proc_state) :
  rebased_once_before_globals
    (events_of (start_bootstrap appsMachHeader argc area ma startGlue) s) /\
  rebased_once_before_globals_but (E_global_write gSyscallHelpers sc)
    (events_of (start_sim_bootstrap argc' argv envp apple mainExecutableMH ma'
                  dyldSlide sc sc_processInfo startGlue') s').
Proof.
  split.
  - destruct (start_bootstrap_run appsMachHeader argc area ma startGlue s)
      as (Htr & _). cbv zeta in Htr. rewrite Htr. clear Htr.
    set (diag := (fixups_outcome ma (st_memory s)).1).
    destruct (rebaseDyld_events_body ma diag) as (body & -> & Hbody).
    match goal with |- context [_ ++ (if ?c then ?t else ?e)] =>
      set (rest := if c then t else e) end.
    assert (Hrest : forall e, e ∈ rest ->
              is_rebaseDyld e = false /\ is_global_access e = false).
    { intros e He. unfold rest, after_rebaseDyld_start in He.
      destruct (_ && _); [|apply elem_of_nil in He; contradiction].
      destruct (dyldbootstrap.skip_to_null _ _); each_event He. }
    assert (Hpost : forall e, e ∈ body ++ rest ->
              is_rebaseDyld e = false /\ is_global_access e = false).
    { intros e He. apply elem_of_app in He as [He|He]; auto. }
    change (E_kdebug_trace_dyld_marker :: (E_rebaseDyld (mh_address ma) :: body) ++ rest)
      with ([E_kdebug_trace_dyld_marker] ++ E_rebaseDyld (mh_address ma) :: (body ++ rest)).
    destruct (one_rebaseDyld [E_kdebug_trace_dyld_marker] (body ++ rest) (mh_address ma))
      as [Hone Hpos].
    { intros e He. each_event He. }
    { intros e He. apply Hpost in He. apply He. }
    split; [exact Hone|].
    intros i j e mh Hi Hj Hg. apply Hpos in Hi. subst i.
    apply lookup_around in Hj as [[_ Hin]|[[_ ->]|[Hgt _]]].
    + apply list_elem_of_singleton in Hin. subst e. discriminate.
    + discriminate.
    + exact Hgt.
  - destruct (start_sim_bootstrap_run argc' argv envp apple mainExecutableMH ma'
                dyldSlide sc sc_processInfo startGlue' s') as (Htr & _).
    cbv zeta in Htr. rewrite Htr. clear Htr.
    set (diag := (fixups_outcome ma' (st_memory s')).1).
    destruct (rebaseDyld_events_body ma' diag) as (body & -> & Hbody).
    match goal with |- context [_ ++ (if ?c then ?t else ?e)] =>
      set (rest := if c then t else e) end.
    assert (Hrest : forall e, e ∈ rest -> is_rebaseDyld e = false).
    { intros e He. unfold rest, after_rebaseDyld_start_sim in He.
      destruct (_ && _); [|apply elem_of_nil in He; contradiction].
      each_event He. }
    change (E_global_write gSyscallHelpers sc ::
              (E_rebaseDyld (mh_address ma') :: body) ++ rest)
      with ([E_global_write gSyscallHelpers sc] ++
              E_rebaseDyld (mh_address ma') :: (body ++ rest)).
    destruct (one_rebaseDyld [E_global_write gSyscallHelpers sc] (body ++ rest)
                (mh_address ma')) as [Hone Hpos].
    { intros e He. each_event He. }
    { intros e He. apply elem_of_app in He as [He|He]; [apply Hbody in He; apply He|auto]. }
    split; [exact Hone|].
    intros i j e mh Hi Hj Hg. apply Hpos in Hi. subst i.
    apply lookup_around in Hj as [[_ Hin]|[[_ ->]|[Hgt _]]].
    + right. apply list_elem_of_singleton in Hin. exact Hin.
    + discriminate.
    + left. exact Hgt.
Qed.

(** C10: [start_sim] stores the host's table of syscall helpers in the
    loader global [gSyscallHelpers] first and calls [rebaseDyld] second,
    nowhere earlier: the global is written before the loader has
    relocated itself, and holds the table from then on. *)
Theorem start_sim_saves_helpers_before_rebaseDyld (argc : Z)
    (argv envp apple : nat) (mainExecutableMH : Z) (ma : MachOLoaded)
    (dyldSlide sc sc_processInfo startGlue : Z) (s : proc_state) :
  let run := start_sim_bootstrap argc argv envp apple mainExecutableMH ma
               dyldSlide sc sc_processInfo startGlue in
  let tr := events_of run s in
  tr !! 0%nat = Some (E_global_write gSyscallHelpers sc) /\
  tr !! 1%nat = Some (E_rebaseDyld (mh_address ma)) /\
  (forall i mh, tr !! i = Some (E_rebaseDyld mh) -> i = 1%nat) /\
  st_gSyscallHelpers (final_state (run s)) = sc.
Proof.
  cbv zeta.
  destruct (start_sim_bootstrap_run argc argv envp apple mainExecutableMH ma
              dyldSlide sc sc_processInfo startGlue s) as (Htr & _ & Hsc & _).
  cbv zeta in Htr, Hsc. rewrite Htr in *. clear Htr.
  set (diag := (fixups_outcome ma (st_memory s)).1) in *.
  destruct (rebaseDyld_events_body ma diag) as (body & Hb & Hbody).
  rewrite Hb in *.
  repeat split; try reflexivity; try assumption.
  intros i mh Hi.
  destruct i as [|[|i]]; [discriminate|reflexivity|exfalso].
  simpl in Hi. apply list_elem_of_lookup_2 in Hi.
  apply elem_of_app in Hi as [Hi|Hi].
  - apply Hbody in Hi as [Hr _]. discriminate.
  - destruct (_ && _); [|apply elem_of_nil in Hi; contradiction].
    unfold after_rebaseDyld_start_sim in Hi.
    repeat (apply elem_of_cons in Hi as [Hi|Hi]; [discriminate|]).
    apply elem_of_nil in Hi. contradiction.
Qed.




End BootstrapFacts.

(** * Facts about the fixup chain decoder *)

Section DecoderFacts.

Import FixupChain.

Context {symbol : Type}.
Variable image : string.
Variable resolve : symbol -> option Z.
Variable symbols : list symbol.
Variable segment_base : Z.
Variable size : Z.
Variable slide : Z.

Local Abbreviation resolve_slot :=
  (resolve_slot image resolve symbols segment_base size slide).
Local Abbreviation decode := (decode image resolve symbols segment_base size slide).
Local Abbreviation apply_chain :=
  (apply_chain image resolve symbols segment_base size slide).

(** Decoding fails as soon as one descriptor is rejected, with the
    failure of the first such descriptor. *)
Lemma decode_rejects (c : fixup_chain) (d : slot_descriptor) (e : fixup_error) :
  d ∈ c -> resolve_slot d = inl e ->
  exists d' e', d' ∈ c /\ resolve_slot d' = inl e' /\ decode c = inl e'.
Proof.
  induction c as [|x c IH]; intros Hin Hd.
  - apply elem_of_nil in Hin. contradiction.
  - simpl. destruct (resolve_slot x) as [ex|op] eqn:Hx.
    + exists x, ex. split; [left|split]; auto.
    + apply elem_of_cons in Hin as [->|Hin]; [congruence|].
      destruct (IH Hin Hd) as (d' & e' & Hin' & Hd' & Hdec).
      exists d', e'. rewrite Hdec. split; [right; assumption|split]; auto.
Qed.

(** A chain that decodes yields one operation per descriptor, at the
    descriptor's slot. *)
Lemma decode_operations (c : fixup_chain) (ops : list slot_operation) :
  decode c = inr ops ->
  Forall2 (fun d op => resolve_slot d = inr op) c ops.
Proof.
  revert ops. induction c as [|x c IH]; intros ops Hdec; simpl in Hdec.
  - injection Hdec as <-. constructor.
  - destruct (resolve_slot x) as [ex|op] eqn:Hx; [discriminate|].
    destruct (decode c) as [e|ops'] eqn:Hc; [discriminate|].
    injection Hdec as <-. constructor; [assumption|]. apply IH. reflexivity.
Qed.

Lemma resolve_slot_address (d : slot_descriptor) (op : slot_operation) :
  resolve_slot d = inr op -> op_address op = segment_base + slot_offset d.
Proof.
  unfold FixupChain.resolve_slot.
  destruct (negb _); [discriminate|].
  destruct (kind d) as [T|ord addend].
  - intros [= <-]. reflexivity.
  - destruct (symbols !! ord) as [sym|]; [|discriminate].
    destruct (resolve sym); [|discriminate].
    intros [= <-]. reflexivity.
Qed.

Lemma resolve_slot_rebase (d : slot_descriptor) (T : Z) (op : slot_operation) :
  kind d = rebase T -> resolve_slot d = inr op ->
  op = {| op_address := segment_base + slot_offset d; op_value := T + slide |}.
Proof.
  unfold FixupChain.resolve_slot. intros ->.
  destruct (negb _); [discriminate|]. intros [= <-]. reflexivity.
Qed.


Lemma resolve_slot_out_of_bounds (d : slot_descriptor) :
  slot_in_segment size (slot_offset d) = false \/
  (exists ord addend, kind d = bind ord addend /\ symbols !! ord = None) ->
  resolve_slot d = inl MalformedFixupChain.
Proof.
  unfold FixupChain.resolve_slot. intros [Hslot|(ord & addend & Hk & Hord)].
  - rewrite Hslot. reflexivity.
  - destruct (negb _); [reflexivity|]. rewrite Hk, Hord. reflexivity.
Qed.

(** Writing the operations of a chain whose slots are distinct leaves
    each slot with the value of its operation. *)
Lemma write_slots_lookup (ops : list slot_operation) (m : gmap Z Z)
    (op : slot_operation) :
  NoDup (op_address <$> ops) -> op ∈ ops ->
  foldl write_slot m ops !! op_address op = Some (op_value op).
Proof.
  induction ops as [|x ops IH] using rev_ind; intros Hnd Hin.
  - apply elem_of_nil in Hin. contradiction.
  - rewrite foldl_app. simpl. unfold write_slot at 1.
    rewrite fmap_app in Hnd. apply NoDup_app in Hnd as (Hnd & Hdisj & _).
    apply elem_of_app in Hin as [Hin|Hin].
    + rewrite lookup_insert_ne.
      * apply IH; assumption.
      * intros Heq. apply (Hdisj (op_address op)).
        -- apply list_elem_of_fmap_2. assumption.
        -- rewrite <- Heq. simpl. left.
    + apply list_elem_of_singleton in Hin. subst x. apply lookup_insert_eq.
Qed.



End DecoderFacts.



(** With an empty table every bind entry is out of the table, so the
    decoder, run over the chains of an image, fails on an image that has
    one. *)
Lemma fixupAllChainedFixups_rejects_bind (ma : MachOAnalyzer) (diag : Diagnostics)
    (starts : dyld_chained_starts_in_image) (slide : Z) (mem : gmap Z Z)
    (sc : FixupChain.segment_chain) (d : FixupChain.slot_descriptor)
    (ord : nat) (addend : Z) :
  sc ∈ starts -> d ∈ FixupChain.chain sc ->
  FixupChain.kind d = FixupChain.bind ord addend ->
  hasError (fixupAllChainedFixups ma diag starts slide [] mem).1 = true.
Proof.
  intros Hsc Hd Hk. revert mem.
  induction starts as [|x starts IH]; intros mem.
  - apply elem_of_nil in Hsc. contradiction.
  - simpl. unfold FixupChain.apply_chain.
    destruct (FixupChain.decode _ _ _ _ _ _ (FixupChain.chain x)) as [e|ops] eqn:Hdec.
    + reflexivity.
    + apply elem_of_cons in Hsc as [->|Hsc]; [|apply IH; assumption].
      exfalso.
      destruct (decode_rejects "dyld" Some [] (mh_address ma + FixupChain.segment_offset x)
                  (FixupChain.segment_size x) slide (FixupChain.chain x) d
                  FixupChain.MalformedFixupChain Hd)
        as (d' & e' & _ & _ & Hfail).
      * apply resolve_slot_out_of_bounds. right. exists ord, addend.
        split; [assumption|reflexivity].
      * congruence.
Qed.

Section FixupMemory.

Variable decoder :
  MachOAnalyzer -> Diagnostics -> dyld_chained_starts_in_image ->
  Z -> list Z -> gmap Z Z -> Diagnostics * gmap Z Z.
Variable getSlide : Z -> Z.

(** The memory [rebaseDyld] leaves depends on the state it starts from
    through the memory alone. *)
Lemma rebaseDyld_memory_by_memory (ma : MachOLoaded) (s s1 : proc_state) :
  st_memory s1 = st_memory s ->
  st_memory (final_state (dyldbootstrap.rebaseDyld decoder ma s1))
  = st_memory (final_state (dyldbootstrap.rebaseDyld decoder ma s)).
Proof.
  intros Hmem.
  destruct (rebaseDyld_run decoder ma s) as (_ & _ & Hm & _).
  destruct (rebaseDyld_run decoder ma s1) as (_ & _ & Hm1 & _).
  cbv zeta in Hm, Hm1. rewrite Hm, Hm1, Hmem. reflexivity.
Qed.

(** After [rebaseDyld] neither entry path touches memory again before it
    hands over. *)
Lemma start_bootstrap_memory (appsMachHeader argc : Z) (area : list Z)
    (ma : MachOLoaded) (startGlue : Z) (s : proc_state) :
  st_memory (final_state (dyldbootstrap.start_bootstrap decoder getSlide
                            appsMachHeader argc area ma startGlue s))
  = st_memory (final_state (dyldbootstrap.rebaseDyld decoder ma s)).
Proof.
  cbv beta iota delta [dyldbootstrap.start_bootstrap mbind M_bind seq emit].
  match goal with |- context [dyldbootstrap.rebaseDyld _ _ ?st] => set (s1 := st) end.
  rewrite <- (rebaseDyld_memory_by_memory ma s s1 eq_refl).
  destruct (dyldbootstrap.rebaseDyld decoder ma s1) as [[] s2|s2]; simpl;
    [|reflexivity].
  destruct (dyldbootstrap.skip_to_null area (Z.to_nat (argc + 1))); reflexivity.
Qed.

Lemma start_sim_bootstrap_memory (argc : Z) (argv envp apple : nat)
    (mainExecutableMH : Z) (ma : MachOLoaded) (dyldSlide sc sc_processInfo : Z)
    (startGlue : Z) (s : proc_state) :
  st_memory (final_state (dyldbootstrap.start_sim_bootstrap decoder getSlide
                            argc argv envp apple mainExecutableMH ma dyldSlide
                            sc sc_processInfo startGlue s))
  = st_memory (final_state (dyldbootstrap.rebaseDyld decoder ma s)).
Proof.
  cbv beta iota delta [dyldbootstrap.start_sim_bootstrap mbind M_bind seq
                         emit write_global].
  match goal with |- context [dyldbootstrap.rebaseDyld _ _ ?st] => set (s1 := st) end.
  rewrite <- (rebaseDyld_memory_by_memory ma s s1 eq_refl).
  destruct (dyldbootstrap.rebaseDyld decoder ma s1) as [[] s2|s2]; reflexivity.
Qed.

End FixupMemory.

(** C5: [rebaseDyld] applies the fixup chains of the loader: it runs the
    decoder over the chain starts of the image, on the memory of the
    process, with the load address as slide and an empty table of bind
    targets, and the memory it leaves, like the memory [start] and
    [start_sim] hand over or end with, is the memory the decoder left.  A
    failure of the fixups is fatal: the run aborts at its check of the
    diagnostics, before the mach layer is initialized and before any
    change of protection, and neither [start] nor [start_sim] gets to
    [dyld::_main].  With the decoder of the fixup chains, an image whose
    chains hold a bind entry always ends so. *)
Theorem bootstrap_fixup_failure_is_fatal
    (decoder : MachOAnalyzer -> Diagnostics -> dyld_chained_starts_in_image ->
               Z -> list Z -> gmap Z Z -> Diagnostics * gmap Z Z)
    (getSlide : Z -> Z) (ma : MachOLoaded) (s : proc_state)
    (appsMachHeader argc : Z) (area : list Z) (startGlue : Z)
    (argc' : Z) (argv envp apple : nat) (mainExecutableMH : Z)
    (dyldSlide sc sc_processInfo startGlue' : Z) :
  let run := dyldbootstrap.rebaseDyld decoder ma in
  let start_run := dyldbootstrap.start_bootstrap decoder getSlide appsMachHeader
                     argc area ma startGlue in
  let sim_run := dyldbootstrap.start_sim_bootstrap decoder getSlide argc' argv
                   envp apple mainExecutableMH ma dyldSlide sc sc_processInfo
                   startGlue' in
  (forall slide bindTargets,
     E_fixupAllChainedFixups slide bindTargets ∈ events_of run s ->
     bindTargets = []) /\
  (forall starts,
     hasChainedFixups ma = true -> chainStarts ma = inr starts ->
     let applied := (decoder ma None starts (dyldbootstrap.slide_of ma) []
                       (st_memory s)).2 in
     filter is_fixup (events_of run s)
       = [E_fixupAllChainedFixups (dyldbootstrap.slide_of ma) []] /\
     st_memory (final_state (run s)) = applied /\
     st_memory (final_state (start_run s)) = applied /\
     st_memory (final_state (sim_run s)) = applied) /\
  (hasError (dyldbootstrap.fixups_outcome decoder ma (st_memory s)).1 = true ->
   returned (run s) = false /\
   (forall e, e ∈ events_of run s -> e <> E_mach_init /\ is_mprotect e = false) /\
   (hasChainedFixups ma = true ->
    last (events_of run s) = Some (E_assertNoError true)) /\
   returned (start_run s) = false /\ returned (sim_run s) = false) /\
  (forall starts chained d ord addend,
     chainStarts ma = inr starts -> chained ∈ starts ->
     d ∈ FixupChain.chain chained ->
     FixupChain.kind d = FixupChain.bind ord addend ->
     returned (dyldbootstrap.rebaseDyld fixupAllChainedFixups ma s) = false).
Proof.
  cbv zeta. split; [|split; [|split]].
  - intros slide bindTargets. apply rebaseDyld_binds_nothing.
  - intros starts Hc Hs.
    rewrite start_bootstrap_memory, start_sim_bootstrap_memory.
    destruct (rebaseDyld_run decoder ma s) as (_ & _ & Hmem & _).
    cbv zeta in Hmem. rewrite Hc in Hmem.
    unfold dyldbootstrap.fixups_outcome in Hmem. rewrite Hs in Hmem.
    split; [|repeat split; exact Hmem].
    rewrite events_of_rebaseDyld. unfold rebaseDyld_events. rewrite Hc, Hs.
    simpl.
    set (diag := (dyldbootstrap.fixups_outcome decoder ma (st_memory s)).1).
    destruct (hasError diag); [reflexivity|].
    change (filter is_fixup
              (E_fixupAllChainedFixups (dyldbootstrap.slide_of ma) [] ::
               [E_assertNoError false; E_mach_init] ++
               (downgrade_of ma <$>
                filter (fun info => readOnlyData info = true) (segments ma)))
            = [E_fixupAllChainedFixups (dyldbootstrap.slide_of ma) []]).
    rewrite filter_cons_True by exact I.
    rewrite filter_app. f_equal.
    induction (filter (fun info => readOnlyData info = true) (segments ma));
      [reflexivity|assumption].
  - intros Herr.
    destruct (rebaseDyld_fixup_failure decoder ma s Herr) as (Hret & Hev & Hlast & _).
    destruct (start_bootstrap_run decoder getSlide appsMachHeader argc area ma
                startGlue s) as (_ & Hstart & _).
    destruct (start_sim_bootstrap_run decoder getSlide argc' argv envp apple
                mainExecutableMH ma dyldSlide sc sc_processInfo startGlue' s)
      as (_ & Hsim & _).
    cbv zeta in Hstart, Hsim. rewrite Herr, andb_false_r in Hstart, Hsim.
    repeat split; try assumption; try (apply Hev; assumption).
    destruct (returned (dyldbootstrap.start_bootstrap _ _ _ _ _ _ _ _));
      [discriminate (Hstart eq_refl)|reflexivity].
  - intros starts chained d ord addend Hs Hsc Hd Hk.
    destruct (rebaseDyld_run fixupAllChainedFixups ma s) as (_ & Hret & _).
    cbv zeta in Hret. rewrite Hret.
    unfold dyldbootstrap.fixups_outcome. rewrite Hs.
    rewrite (fixupAllChainedFixups_rejects_bind ma None starts _ _ chained d ord
               addend Hsc Hd Hk).
    apply andb_false_r.
Qed.

(** * The bootstrap on the concrete loader images *)

Section BootstrapScenarios.

Import Scenario.

Local Abbreviation rebaseDyld := (dyldbootstrap.rebaseDyld fixupAllChainedFixups).
Local Abbreviation sim_run :=
  (dyldbootstrap.start_sim_bootstrap fixupAllChainedFixups no_slide
     2 0%nat 3%nat 5%nat 9000 dyld_image 4096 777 888 0).
Local Abbreviation start_run :=
  (dyldbootstrap.start_bootstrap fixupAllChainedFixups no_slide
     9000 2 argument_area dyld_image 0).

Lemma dyld_image_trace :
  events_of (rebaseDyld dyld_image) fresh =
  [E_rebaseDyld 4096; E_assert true; E_fixupAllChainedFixups 4096 [];
   E_assertNoError false; E_mach_init; E_mprotect 4352 64 1].
Proof. vm_compute. reflexivity. Qed.

(** C2 (counterexample): on the loader image with one read-only-data
    segment the mach layer is initialized at position 4 of the trace and
    the segment is downgraded at position 5, after it. *)
Lemma mach_init_precedes_downgrade :
  ~ syscall_layer_after_downgrades dyld_image
      (events_of (rebaseDyld dyld_image) fresh).
Proof.
  rewrite dyld_image_trace. intros Hclaim.
  destruct (Hclaim 4%nat eq_refl
              {| vmAddr := 256; vmSize := 64; readOnlyData := true |})
    as (j & Hj & Hev).
  - right. left.
  - reflexivity.
  - destruct j as [|[|[|[|j]]]]; try discriminate Hev. lia.
Qed.

(** C2 (witness of the amended claim). *)
Lemma mach_init_between_fixups_and_downgrades_witness :
  E_mach_init ∈ events_of (rebaseDyld dyld_image) fresh /\
  forall j e, events_of (rebaseDyld dyld_image) fresh !! j = Some e ->
              is_mprotect e = true -> (4 < j)%nat.
Proof.
  destruct (mach_init_between_fixups_and_downgrades fixupAllChainedFixups
              dyld_image fresh) as [Hinit Horder].
  split.
  - apply Hinit. vm_compute. reflexivity.
  - apply (Horder 4%nat). rewrite dyld_image_trace. reflexivity.
Defined.

(** C3 (counterexample): on the path of [start_sim] the write of
    [gSyscallHelpers] is at position 0 of the trace and the entry of
    [rebaseDyld] at position 1. *)
Lemma start_sim_writes_global_first :
  ~ rebased_once_before_globals (events_of sim_run fresh).
Proof.
  intros [_ Horder].
  specialize (Horder 1%nat 0%nat (E_global_write gSyscallHelpers 777) 4096).
  assert (Hlt : (1 < 0)%nat); [|lia].
  apply Horder; vm_compute; reflexivity.
Qed.

(** C9 (witness): the image built without chained fixups. *)
Lemma rebaseDyld_asserts_chained_fixups_witness :
  hasChainedFixups unchained_image = false /\
  returned (rebaseDyld unchained_image fresh) = false /\
  events_of (rebaseDyld unchained_image) fresh = [E_rebaseDyld 4096; E_assert false].
Proof.
  split; [reflexivity|].
  destruct (rebaseDyld_asserts_chained_fixups fixupAllChainedFixups
              unchained_image fresh eq_refl) as (Hret & Hev & _).
  split; assumption.
Defined.

(** C7 (witness): the loader image at 0x1000 is rebased with slide
    0x1000, which puts 0x1000 + 64 in its first slot. *)
Lemma rebaseDyld_slide_is_load_address_witness :
  is_pointer 4096 /\
  filter is_fixup (events_of (rebaseDyld dyld_image) fresh) =
    [E_fixupAllChainedFixups 4096 []] /\
  st_memory (final_state (rebaseDyld dyld_image fresh)) !! (4096 + 512 + 0)
    = Some (64 + 4096).
Proof.
  assert (Hp : is_pointer 4096) by (vm_compute; split; [discriminate|reflexivity]).
  split; [exact Hp|].
  destruct (rebaseDyld_slide_is_load_address fixupAllChainedFixups dyld_image fresh
              _ Hp eq_refl eq_refl) as (_ & Hev & Hmem).
  split; [exact Hev|].
  rewrite Hmem. vm_compute. reflexivity.
Defined.

(** C5 (witness): the loader image at 0x1000, whose first data slot
    holds its target plus 0x1000 after the bootstrap, and the same image
    with a bind entry in its chain, on which the bootstrap ends at the
    check of the diagnostics. *)
Lemma bootstrap_fixup_failure_is_fatal_witness :
  st_memory (final_state (rebaseDyld dyld_image fresh)) !! 4608 = Some 4160 /\
  st_memory (final_state (start_run fresh)) !! 4608 = Some 4160 /\
  returned (rebaseDyld binding_image fresh) = false /\
  last (events_of (rebaseDyld binding_image) fresh) = Some (E_assertNoError true) /\
  ~ E_mach_init ∈ events_of (rebaseDyld binding_image) fresh /\
  returned (dyldbootstrap.start_bootstrap fixupAllChainedFixups no_slide
              9000 2 argument_area binding_image 0 fresh) = false.
Proof.
  destruct (bootstrap_fixup_failure_is_fatal fixupAllChainedFixups no_slide
              dyld_image fresh 9000 2 argument_area 0
              2 0%nat 3%nat 5%nat 9000 4096 777 888 0) as (_ & Happlied & _).
  destruct (Happlied _ eq_refl eq_refl) as (_ & Hmem & Hstartmem & _).
  split; [rewrite Hmem; vm_compute; reflexivity|].
  split; [rewrite Hstartmem; vm_compute; reflexivity|].
  destruct (bootstrap_fixup_failure_is_fatal fixupAllChainedFixups no_slide
              binding_image fresh 9000 2 argument_area 0
              2 0%nat 3%nat 5%nat 9000 4096 777 888 0) as (_ & _ & Hfatal & Hbind).
  destruct Hfatal as (Hret & Hev & Hlast & Hstart & Hsim); [vm_compute; reflexivity|].
  split; [|split; [|split]].
  - eapply (Hbind _ _ {| FixupChain.slot_offset := 8;
                         FixupChain.kind := FixupChain.bind 0 0 |}).
    + reflexivity.
    + left.
    + right. left.
    + reflexivity.
  - apply Hlast. reflexivity.
  - intros Hin. apply Hev in Hin as [Hne _]. congruence.
  - exact Hstart.
Defined.



End BootstrapScenarios.

(** * Facts about the load orchestrator *)

Section RebaseFacts.

Import FixupChain Loader.

(** A step over the nodes that reports no failure has treated every
    node. *)
Lemma for_each_node_done (f : Image -> load_error + Image)
    (nodes nodes' : list Image) :
  for_each_node f nodes = (None, nodes') ->
  Forall2 (fun img img' => f img = inr img') nodes nodes'.
Proof.
  revert nodes'. induction nodes as [|img rest IH]; intros nodes' Hrun;
    simpl in Hrun.
  - injection Hrun as <-. constructor.
  - destruct (f img) as [e|img'] eqn:Hf; [discriminate|].
    destruct (for_each_node f rest) as [e rest'] eqn:Hrest.
    injection Hrun as -> <-. constructor; [assumption|]. apply IH. reflexivity.
Qed.

(** The operations the Rebase step performs on the segments [segs] of
    an image: every slot address it writes, and the operation of each
    rebase entry. *)
Lemma rebase_segments_operations (img : Image) (segs : list Segment)
    (mem mem' : gmap Z Z) :
  apply_segments (rebase_segment img) segs mem = (None, mem') ->
  exists ops,
    mem' = foldl write_slot mem ops /\
    op_address <$> ops =
      (seg ← segs;
       (fun d => img_base img + seg_start seg + slot_offset d)
         <$> rebase_entries (seg_chain seg)) /\
    forall seg d T,
      seg ∈ segs -> d ∈ seg_chain seg -> kind d = rebase T ->
      {| op_address := img_base img + seg_start seg + slot_offset d;
         op_value := T + img_slide img |} ∈ ops.
Proof.
  revert mem. induction segs as [|seg rest IH]; intros mem Hrun; simpl in Hrun.
  - injection Hrun as <-. exists []. repeat split.
    intros seg d T Hseg. apply elem_of_nil in Hseg. contradiction.
  - unfold rebase_segment at 1, apply_chain in Hrun.
    destruct (decode _ _ _ _ _ _ (rebase_entries (seg_chain seg)))
      as [e|ops1] eqn:Hdec; [discriminate|].
    destruct (IH _ Hrun) as (ops2 & -> & Haddr & Hops).
    pose proof (decode_operations _ _ _ _ _ _ _ _ Hdec) as Hall.
    exists (ops1 ++ ops2). split; [symmetry; apply foldl_app|]. split.
    + rewrite fmap_app, Haddr, bind_cons. f_equal.
      clear -Hall. induction Hall as [|d op c ops Hd _ IHall]; [reflexivity|].
      rewrite !fmap_cons, IHall. f_equal.
      apply resolve_slot_address in Hd. exact Hd.
    + intros seg' d T Hseg Hd Hk. apply elem_of_app.
      apply elem_of_cons in Hseg as [->|Hseg]; [left|right; eauto].
      assert (Hin : d ∈ rebase_entries (seg_chain seg)).
      { apply list_elem_of_filter. split; [|assumption].
        unfold is_rebase. rewrite Hk. exact I. }
      clear -Hall Hin Hk.
      induction Hall as [|d' op c ops Hd' _ IHall].
      * apply elem_of_nil in Hin. contradiction.
      * apply elem_of_cons in Hin as [->|Hin].
        -- apply elem_of_cons. left. symmetry.
           eapply resolve_slot_rebase; eassumption.
        -- right. apply IHall. assumption.
Qed.

(** The Rebase step on one image. *)
Lemma rebase_image_slot (img img' : Image) (seg : Segment)
    (d : slot_descriptor) (T : Z) :
  rebase_image img = inr img' ->
  seg ∈ img_segments img -> d ∈ seg_chain seg -> kind d = rebase T ->
  NoDup (rebase_slot_addresses img) ->
  img_state img' = Rebased /\ img_slide img' = img_slide img /\
  img_memory img' !! (img_base img + seg_start seg + slot_offset d)
    = Some (T + img_slide img).
Proof.
  unfold rebase_image. intros Hrun Hseg Hd Hk Hnd.
  destruct (apply_segments _ _ _) as [[e|] mem'] eqn:Happly; [discriminate|].
  injection Hrun as <-. simpl. repeat split.
  destruct (rebase_segments_operations _ _ _ _ Happly) as (ops & -> & Haddr & Hops).
  apply (write_slots_lookup ops (img_memory img)
           {| op_address := img_base img + seg_start seg + slot_offset d;
              op_value := T + img_slide img |}).
  - rewrite Haddr. exact Hnd.
  - eapply Hops; eassumption.
Qed.

(** C4: after the Rebase step, the slot of every rebase entry with
    target offset T, in an image loaded at slide S whose chains visit no
    slot twice, holds T + S; the slot is at the base of its segment plus
    its offset. *)
Theorem rebase_slot_holds_target_plus_slide (t t' : Transaction) (k : nat)
    (img : Image) (seg : Segment) (d : slot_descriptor) (T : Z) :
  rebase_step t = (None, t') ->
  t_nodes t !! k = Some img ->
  seg ∈ img_segments img -> d ∈ seg_chain seg -> kind d = rebase T ->
  NoDup (rebase_slot_addresses img) ->
  exists img',
    t_nodes t' !! k = Some img' /\ img_state img' = Rebased /\
    img_slide img' = img_slide img /\
    img_memory img' !! (img_base img + seg_start seg + slot_offset d)
      = Some (T + img_slide img).
Proof.
  unfold rebase_step, node_step. intros Hstep Hk Hseg Hd Hkind Hnd.
  destruct (for_each_node rebase_image (t_nodes t)) as [e nodes'] eqn:Hrun.
  injection Hstep as -> <-. simpl.
  apply for_each_node_done in Hrun.
  destruct (Forall2_lookup_l _ _ _ _ _ Hrun Hk) as (img' & Hk' & Himg).
  exists img'. split; [exact Hk'|].
  eapply rebase_image_slot; eassumption.
Qed.

End RebaseFacts.

Section RebaseScenario.

Import FixupChain Loader Scenario.

(** C4 (witness): an image mapped at 0x2000 whose third entry rebases
    to offset 24. *)
Lemma rebase_slot_holds_target_plus_slide_witness :
  let t := {| t_process := running; t_nodes := [rebasing_image]; t_held := [] |} in
  NoDup (rebase_slot_addresses rebasing_image) /\
  exists img',
    t_nodes (rebase_step t).2 !! 0%nat = Some img' /\
    img_memory img' !! (8192 + 0 + 16) = Some (24 + 8192).
Proof.
  cbv zeta.
  assert (Hnd : NoDup (rebase_slot_addresses rebasing_image)).
  { apply (bool_decide_unpack _). vm_compute. exact I. }
  split; [exact Hnd|].
  destruct (rebase_slot_holds_target_plus_slide
              {| t_process := running; t_nodes := [rebasing_image]; t_held := [] |}
              (rebase_step {| t_process := running; t_nodes := [rebasing_image];
                              t_held := [] |}).2
              0%nat rebasing_image
              (data_segment [ {| slot_offset := 0; kind := rebase 16 |};
                              {| slot_offset := 8; kind := bind 0 0 |};
                              {| slot_offset := 16; kind := rebase 24 |} ])
              {| slot_offset := 16; kind := rebase 24 |} 24)
    as (img' & Hk & _ & _ & Hmem).
  - vm_compute. reflexivity.
  - reflexivity.
  - left.
  - right. right. left.
  - reflexivity.
  - exact Hnd.
  - exists img'. split; [exact Hk|exact Hmem].
Defined.

End RebaseScenario.

Section CollectFacts.

Import FixupChain Loader.

Variable binaries : gmap string Binary.
Variable compatible : option string -> Binary -> bool.
Variable map_image : list (Z * Z) -> string -> Binary -> option Z.

Lemma collected_refl (t : Transaction) : collected_from t t.
Proof.
  repeat split.
  - exists []. split; reflexivity.
  - exists []. split; [symmetry; apply app_nil_r|constructor].
Qed.

Lemma collected_trans (t1 t2 t3 : Transaction) :
  collected_from t1 t2 -> collected_from t2 t3 -> collected_from t1 t3.
Proof.
  intros (Hreg1 & Hres1 & (held1 & Hh1 & Hrc1) & (added1 & Hn1 & Hall1))
         (Hreg2 & Hres2 & (held2 & Hh2 & Hrc2) & (added2 & Hn2 & Hall2)).
  repeat split.
  - congruence.
  - congruence.
  - exists (held2 ++ held1). split.
    + rewrite Hh2, Hh1. apply app_assoc.
    + rewrite foldl_app, Hrc2. exact Hrc1.
  - exists (added1 ++ added2). split.
    + rewrite Hn2, Hn1. symmetry. apply app_assoc.
    + apply Forall_app. split; [exact Hall1|].
      rewrite Hreg1 in Hall2. exact Hall2.
Qed.

Lemma release_retained (id : string) (rc : gmap string nat) :
  release (alter S id rc) id = rc.
Proof.
  unfold release. rewrite alter_alter_eq. apply alter_id. reflexivity.
Qed.

Lemma collected_retain (id : string) (t : Transaction) :
  collected_from t (retain id t).
Proof.
  repeat split.
  - exists [id]. split; [reflexivity|]. simpl. apply release_retained.
  - exists []. split; [symmetry; apply app_nil_r|constructor].
Qed.

Lemma collected_add_node (id : string) (bin : Binary) (t : Transaction) :
  registered (t_process t) id = false ->
  collected_from t (add_node (new_image id bin) t).
Proof.
  intros Hreg. repeat split.
  - exists []. split; reflexivity.
  - exists [new_image id bin]. split; [reflexivity|].
    constructor; [|constructor]. split; [|reflexivity].
    unfold registered in Hreg. apply bool_decide_eq_false in Hreg. exact Hreg.
Qed.

Lemma for_each_dependency_collected (visit : string -> step) (deps : list string) :
  (forall dep t, collected_from t (visit dep t).2) ->
  forall t, collected_from t (for_each_dependency visit deps t).2.
Proof.
  intros Hvisit. induction deps as [|dep rest IH]; intros t; simpl.
  - apply collected_refl.
  - pose proof (Hvisit dep t) as Hdep.
    destruct (visit dep t) as [[e|] t']; simpl in *; [exact Hdep|].
    eapply collected_trans; [exact Hdep|apply IH].
Qed.

Lemma for_each_dependency_ext (visit visit' : string -> step) (deps : list string) :
  (forall dep t, visit dep t = visit' dep t) ->
  forall t, for_each_dependency visit deps t = for_each_dependency visit' deps t.
Proof.
  intros Hext. induction deps as [|dep rest IH]; intros t; simpl; [reflexivity|].
  rewrite Hext. destruct (visit' dep t) as [[e|] t']; [reflexivity|apply IH].
Qed.

(** The depth bound never cuts the resolver short: any bound that covers
    the binaries still available gives the same result, so the result of
    Collect, which starts with the number of binaries, is the result of
    the unbounded search. *)
Lemma resolve_enough_fuel (n m : nat) (avail : gmap string Binary)
    (stack : list string) (id : string) (t : Transaction) :
  (size avail <= n)%nat -> (size avail <= m)%nat ->
  resolve compatible n avail stack id t = resolve compatible m avail stack id t.
Proof.
  revert m avail stack id t.
  induction n as [|n IH]; intros [|m] avail stack id t Hn Hm; try reflexivity.
  - assert (avail = ∅) as -> by (apply map_size_empty_inv; lia).
    simpl. rewrite lookup_empty. reflexivity.
  - assert (avail = ∅) as -> by (apply map_size_empty_inv; lia).
    simpl. rewrite lookup_empty. reflexivity.
  - simpl. destruct (registered (t_process t) id); [reflexivity|].
    repeat case_bool_decide; try reflexivity.
    destruct (avail !! id) as [bin|] eqn:Hbin; [|reflexivity].
    destruct (compatible (head stack) bin); [|reflexivity].
    assert (Hsize : size (delete id avail) = pred (size avail)).
    { apply map_size_delete_Some. eexists. exact Hbin. }
    rewrite (for_each_dependency_ext
               (resolve compatible n (delete id avail) (id :: stack))
               (resolve compatible m (delete id avail) (id :: stack))).
    + reflexivity.
    + intros dep t0. apply IH; lia.
Qed.

(** Whatever the resolver does, and whether it succeeds or not, it leaves
    the registry alone and only adds unmapped nodes and releasable
    references. *)
Lemma resolve_collected (fuel : nat) (avail : gmap string Binary)
    (stack : list string) (id : string) (t : Transaction) :
  collected_from t (resolve compatible fuel avail stack id t).2.
Proof.
  revert avail stack id t. induction fuel as [|fuel IH]; intros avail stack id t;
    simpl.
  - destruct (registered (t_process t) id); [apply collected_retain|].
    repeat case_bool_decide; simpl; apply collected_refl.
  - destruct (registered (t_process t) id) eqn:Hreg; [apply collected_retain|].
    repeat case_bool_decide; simpl; try apply collected_refl.
    destruct (avail !! id) as [bin|]; [|apply collected_refl].
    destruct (compatible (head stack) bin); [|apply collected_refl].
    pose proof (for_each_dependency_collected
                  (resolve compatible fuel (delete id avail) (id :: stack))
                  (bin_dependencies bin)
                  (fun dep t0 => IH (delete id avail) (id :: stack) dep t0) t) as Hdeps.
    destruct (for_each_dependency _ _ t) as [[e|] t']; simpl in *; [exact Hdeps|].
    eapply collected_trans; [exact Hdeps|].
    apply collected_add_node.
    destruct Hdeps as (Hsame & _). unfold registered in *. rewrite Hsame. exact Hreg.
Qed.

End CollectFacts.

Section UnwindFacts.

Import FixupChain Loader.

Variable map_image : list (Z * Z) -> string -> Binary -> option Z.

Lemma restorable_unwind (p : Process) (t : Transaction) :
  restorable p t -> unwind t = p.
Proof.
  intros (Hreg & Hrc & Hres). unfold unwind. rewrite Hreg, Hrc, Hres.
  destruct p. reflexivity.
Qed.

Lemma unwind_unmapped (nodes : list Image) (res : list (Z * Z)) :
  Forall (fun n => img_state n = Unmapped) nodes ->
  foldr unwind_node res nodes = res.
Proof.
  induction 1 as [|n nodes Hn _ IH]; [reflexivity|].
  simpl. rewrite IH. unfold unwind_node, is_mapped. rewrite Hn. reflexivity.
Qed.

Lemma collected_restorable (p : Process) (t : Transaction) :
  collected_from (begin p) t ->
  restorable p t /\
  Forall (fun n => img_state n = Unmapped) (t_nodes t) /\
  Forall (fun n => ~ img_path n ∈ paths (registry p)) (t_nodes t).
Proof.
  intros (Hreg & Hres & (held & Hh & Hrc) & (added & Hn & Hall)). simpl in *.
  rewrite app_nil_r in Hh. subst held.
  assert (Hstate : Forall (fun n => img_state n = Unmapped) (t_nodes t)).
  { rewrite Hn. eapply Forall_impl; [exact Hall|]. intros n [_ Hs]. exact Hs. }
  repeat split; try assumption.
  - rewrite Hres. apply unwind_unmapped. exact Hstate.
  - rewrite Hn. eapply Forall_impl; [exact Hall|]. intros n [Hp _]. exact Hp.
Qed.

(** Map: the nodes keep their identity; unmapping them in reverse order
    gives back the regions resident before; a step without failure leaves
    every node mapped. *)
Lemma map_nodes_spec (nodes : list Image) (res : list (Z * Z)) :
  Forall (fun n => img_state n = Unmapped) nodes ->
  forall e nodes' res',
  map_nodes map_image nodes res = (e, nodes', res') ->
  identity <$> nodes' = identity <$> nodes /\
  foldr unwind_node res' nodes' = res /\
  (e = None -> Forall (fun n => is_mapped n = true) nodes').
Proof.
  intros Hall. revert res.
  induction Hall as [|img rest Himg Hrest IH]; intros res e nodes' res' Hrun;
    simpl in Hrun.
  - injection Hrun as <- <- <-. repeat split. intros _. constructor.
  - destruct (map_image res (img_path img) (img_binary img)) as [base|].
    + destruct (map_nodes map_image rest _) as [[e0 rest'] res0] eqn:Hmap.
      injection Hrun as <- <- <-.
      destruct (IH _ _ _ _ Hmap) as (Hid & Hunwind & Hmapped).
      repeat split.
      * rewrite !fmap_cons, Hid. reflexivity.
      * simpl. rewrite Hunwind. unfold unwind_node. simpl.
        rewrite decide_True by reflexivity. reflexivity.
      * intros He. constructor; [reflexivity|auto].
    + injection Hrun as <- <- <-. repeat split.
      * apply unwind_unmapped. constructor; assumption.
      * discriminate.
Qed.

(** A step over the nodes that keeps the identity and the base of the
    images it treats keeps what unwinding does. *)
Lemma for_each_node_spec (f : Image -> load_error + Image) (nodes : list Image) :
  (forall img img', f img = inr img' ->
     identity img' = identity img /\ img_base img' = img_base img /\
     is_mapped img' = true) ->
  forall e nodes',
  for_each_node f nodes = (e, nodes') ->
  identity <$> nodes' = identity <$> nodes /\
  (Forall (fun n => is_mapped n = true) nodes ->
   Forall (fun n => is_mapped n = true) nodes' /\
   forall res, foldr unwind_node res nodes' = foldr unwind_node res nodes).
Proof.
  intros Hf. induction nodes as [|img rest IH]; intros e nodes' Hrun; simpl in Hrun.
  - injection Hrun as <- <-. repeat split. constructor.
  - destruct (f img) as [err|img'] eqn:Himg.
    + injection Hrun as <- <-. repeat split. assumption.
    + destruct (for_each_node f rest) as [e0 rest'] eqn:Hrest.
      injection Hrun as <- <-.
      destruct (IH _ _ eq_refl) as (Hid & Hkeep).
      destruct (Hf _ _ Himg) as (Hidentity & Hbase & Hmapped).
      split; [rewrite !fmap_cons, Hid, Hidentity; reflexivity|].
      intros Hall. apply Forall_cons in Hall as [Hm Hall].
      destruct (Hkeep Hall) as (Hall' & Hunwind).
      split; [constructor; assumption|].
      intros res. simpl. rewrite Hunwind.
      unfold unwind_node, region_of. rewrite Hmapped, Hm, Hbase.
      injection Hidentity as _ ->. reflexivity.
Qed.

Lemma rebase_image_keeps (img img' : Image) :
  rebase_image img = inr img' ->
  identity img' = identity img /\ img_base img' = img_base img /\
  is_mapped img' = true.
Proof.
  unfold rebase_image. destruct (apply_segments _ _ _) as [[e|] mem]; [discriminate|].
  intros [= <-]. repeat split.
Qed.

Lemma bind_image_keeps (known : list Image) (img img' : Image) :
  bind_image known img = inr img' ->
  identity img' = identity img /\ img_base img' = img_base img /\
  is_mapped img' = true.
Proof.
  unfold bind_image. destruct (apply_segments _ _ _) as [[e|] mem]; [discriminate|].
  intros [= <-]. repeat split.
Qed.

Lemma initialize_image_keeps (img img' : Image) :
  initialize_image img = inr img' ->
  identity img' = identity img /\ img_base img' = img_base img /\
  is_mapped img' = true.
Proof.
  unfold initialize_image. destruct (forallb _ _); [|discriminate].
  intros [= <-]. repeat split.
Qed.

End UnwindFacts.

Section PipelineFacts.

Import FixupChain Loader.

Variable binaries : gmap string Binary.
Variable compatible : option string -> Binary -> bool.
Variable map_image : list (Z * Z) -> string -> Binary -> option Z.

Local Abbreviation collect := (collect binaries compatible).
Local Abbreviation pipeline := (pipeline binaries compatible map_image).
Local Abbreviation load := (load binaries compatible map_image).

Lemma map_step_restorable (p : Process) (t t' : Transaction) (e : option load_error) :
  map_step map_image t = (e, t') ->
  restorable p t -> Forall (fun n => img_state n = Unmapped) (t_nodes t) ->
  restorable p t' /\
  identity <$> t_nodes t' = identity <$> t_nodes t /\
  (e = None -> Forall (fun n => is_mapped n = true) (t_nodes t')).
Proof.
  unfold map_step. intros Hstep (Hreg & Hrc & Hres) Hall.
  destruct (map_nodes map_image (t_nodes t) (resident (t_process t)))
    as [[e0 nodes'] res'] eqn:Hmap.
  injection Hstep as <- <-.
  destruct (map_nodes_spec map_image _ _ Hall _ _ _ Hmap) as (Hid & Hunwind & Hmapped).
  repeat split; simpl; try assumption.
  rewrite Hunwind. rewrite unwind_unmapped in Hres by assumption. exact Hres.
Qed.

Lemma node_step_restorable (f : Image -> load_error + Image) (p : Process)
    (t t' : Transaction) (e : option load_error) :
  (forall img img', f img = inr img' ->
     identity img' = identity img /\ img_base img' = img_base img /\
     is_mapped img' = true) ->
  node_step f t = (e, t') ->
  restorable p t -> Forall (fun n => is_mapped n = true) (t_nodes t) ->
  restorable p t' /\
  identity <$> t_nodes t' = identity <$> t_nodes t /\
  Forall (fun n => is_mapped n = true) (t_nodes t').
Proof.
  unfold node_step. intros Hf Hstep (Hreg & Hrc & Hres) Hall.
  destruct (for_each_node f (t_nodes t)) as [e0 nodes'] eqn:Hrun.
  injection Hstep as <- <-.
  destruct (for_each_node_spec f _ Hf _ _ Hrun) as (Hid & Hkeep).
  destruct (Hkeep Hall) as (Hall' & Hunwind).
  repeat split; simpl; try assumption.
  rewrite Hunwind. exact Hres.
Qed.

(** Wherever the pipeline stops, unwinding its transaction gives back the
    process it started from, and its nodes are those Collect introduced.
    When it runs through, the Bind step has succeeded on these nodes. *)
Lemma pipeline_spec (root : string) (p : Process) (e : option load_error)
    (t : Transaction) :
  pipeline root (begin p) = (e, t) ->
  exists e1 t1,
    collect root (begin p) = (e1, t1) /\
    collected_from (begin p) t1 /\
    restorable p t /\
    identity <$> t_nodes t = identity <$> t_nodes t1 /\
    (e = None ->
     exists t3 t4,
       bind_step t3 = (None, t4) /\
       registry (t_process t3) = registry p /\
       identity <$> t_nodes t3 = identity <$> t_nodes t1).
Proof.
  unfold Loader.pipeline, and_then. intros Hrun.
  destruct (collect root (begin p)) as [e1 t1] eqn:Hcollect.
  exists e1, t1. split; [reflexivity|].
  assert (Hfrom : collected_from (begin p) t1).
  { pose proof (resolve_collected compatible (size binaries) binaries [] root (begin p))
      as Hc. unfold Loader.collect in Hcollect. rewrite Hcollect in Hc. exact Hc. }
  split; [exact Hfrom|].
  destruct (collected_restorable p t1 Hfrom) as (Hr1 & Hunmapped & _).
  destruct e1 as [err|].
  { injection Hrun as <- <-. repeat split; try apply Hr1. discriminate. }
  destruct (map_step map_image t1) as [e2 t2] eqn:Hmap.
  destruct (map_step_restorable p _ _ _ Hmap Hr1 Hunmapped) as (Hr2 & Hid2 & Hm2).
  destruct e2 as [err|].
  { injection Hrun as <- <-. repeat split; try apply Hr2; try assumption. discriminate. }
  specialize (Hm2 eq_refl).
  destruct (rebase_step t2) as [e3 t3] eqn:Hrebase.
  destruct (node_step_restorable _ p _ _ _ rebase_image_keeps Hrebase Hr2 Hm2)
    as (Hr3 & Hid3 & Hm3).
  rewrite Hid2 in Hid3.
  destruct e3 as [err|].
  { injection Hrun as <- <-. repeat split; try apply Hr3; try assumption. discriminate. }
  destruct (bind_step t3) as [e4 t4] eqn:Hbind.
  destruct (node_step_restorable _ p _ _ _
              (bind_image_keeps (registry (t_process t3) ++ t_nodes t3))
              Hbind Hr3 Hm3) as (Hr4 & Hid4 & Hm4).
  rewrite Hid3 in Hid4.
  destruct e4 as [err|].
  { injection Hrun as <- <-. repeat split; try apply Hr4; try assumption. discriminate. }
  destruct (node_step_restorable _ p _ _ _ initialize_image_keeps Hrun Hr4 Hm4)
    as (Hr5 & Hid5 & _).
  rewrite Hid4 in Hid5.
  repeat split; try apply Hr5; try assumption.
  intros _. exists t3, t4. repeat split; try assumption. apply Hr3.
Qed.

(** A load that fails leaves the process exactly as it was. *)
Lemma load_failure_restores (root : string) (p p' : Process) (reason : load_error) :
  load root p = (Failed reason, p') -> p' = p.
Proof.
  unfold Loader.load.
  destruct (pipeline root (begin p)) as [[e|] t] eqn:Hrun; [|discriminate].
  intros [= _ <-].
  destruct (pipeline_spec root p _ _ Hrun) as (e1 & t1 & _ & _ & Hr & _).
  apply restorable_unwind. exact Hr.
Qed.

End PipelineFacts.

Section BindFacts.

Import FixupChain Loader.

Lemma decode_accepts {symbol : Type} (image : string) (resolve : symbol -> option Z)
    (symbols : list symbol) (base size slide : Z) (c : fixup_chain)
    (ops : list slot_operation) (d : slot_descriptor) :
  decode image resolve symbols base size slide c = inr ops -> d ∈ c ->
  exists op, resolve_slot image resolve symbols base size slide d = inr op.
Proof.
  intros Hdec Hin. apply decode_operations in Hdec.
  apply list_elem_of_lookup in Hin as [i Hi].
  destruct (Forall2_lookup_l _ _ _ _ _ Hdec Hi) as (op & _ & Hop).
  exists op. exact Hop.
Qed.

Lemma resolve_slot_bound {symbol : Type} (image : string)
    (resolve : symbol -> option Z) (symbols : list symbol) (base size slide : Z)
    (d : slot_descriptor) (ord : nat) (addend : Z) (op : slot_operation) :
  kind d = bind ord addend ->
  resolve_slot image resolve symbols base size slide d = inr op ->
  slot_in_segment size (slot_offset d) = true /\
  exists sym address, symbols !! ord = Some sym /\ resolve sym = Some address.
Proof.
  unfold resolve_slot. intros ->.
  destruct (slot_in_segment size (slot_offset d)); [|discriminate]. simpl.
  destruct (symbols !! ord) as [sym|]; [|discriminate].
  destruct (resolve sym) as [address|] eqn:Hres; [|discriminate].
  intros _. split; [reflexivity|]. exists sym, address. auto.
Qed.

Lemma symbol_address_exported (known : list Image) (deps : list string)
    (sym : string) (address : Z) :
  symbol_address known deps sym = Some address ->
  exported_by known deps sym = true.
Proof.
  unfold exported_by.
  induction deps as [|dep rest IH]; simpl; [discriminate|].
  destruct (find_image known dep) as [d|]; simpl.
  - destruct (bin_exports (img_binary d) !! sym) as [off|] eqn:Hoff; simpl.
    + intros _. reflexivity.
    + intros Hrest. rewrite (IH Hrest). reflexivity.
  - exact IH.
Qed.

(** An image whose Bind step succeeds binds. *)
Lemma bind_image_binds (known : list Image) (img img' : Image) :
  bind_image known img = inr img' -> binds known img = true.
Proof.
  unfold bind_image, binds.
  destruct (apply_segments _ _ _) as [[e|] mem'] eqn:Happly; [discriminate|].
  intros _. revert Happly. generalize (img_memory img).
  induction (img_segments img) as [|seg rest IH]; intros mem Happly;
    [reflexivity|].
  simpl in Happly. unfold bind_segment at 1, apply_chain in Happly.
  destruct (decode _ _ _ _ _ _ (bind_entries (seg_chain seg))) as [e|ops] eqn:Hdec;
    [discriminate|].
  simpl. rewrite (IH _ Happly), andb_true_r.
  apply forallb_forall. intros d Hd. apply list_elem_of_In in Hd.
  unfold entry_binds. destruct (kind d) as [T|ord addend] eqn:Hk; [reflexivity|].
  assert (Hin : d ∈ bind_entries (seg_chain seg)).
  { apply list_elem_of_filter. split; [|assumption].
    unfold is_bind. rewrite Hk. exact I. }
  destruct (decode_accepts _ _ _ _ _ _ _ _ d Hdec Hin) as (op & Hop).
  destruct (resolve_slot_bound _ _ _ _ _ _ d ord addend op Hk Hop)
    as (Hslot & sym & address & Hsym & Hres).
  rewrite Hslot, Hsym. simpl.
  eapply symbol_address_exported. exact Hres.
Qed.

Lemma exported_symbol_address (known : list Image) (deps : list string)
    (sym : string) :
  exported_by known deps sym = true ->
  exists address, symbol_address known deps sym = Some address.
Proof.
  unfold exported_by.
  induction deps as [|dep rest IH]; simpl; [discriminate|].
  destruct (find_image known dep) as [d|]; simpl; [|exact IH].
  destruct (bin_exports (img_binary d) !! sym) as [off|]; simpl.
  - intros _. eexists. reflexivity.
  - exact IH.
Qed.

Lemma decode_total {symbol : Type} (image : string) (resolve : symbol -> option Z)
    (symbols : list symbol) (base size slide : Z) (c : fixup_chain) :
  (forall d, d ∈ c ->
     exists op, resolve_slot image resolve symbols base size slide d = inr op) ->
  exists ops, decode image resolve symbols base size slide c = inr ops.
Proof.
  induction c as [|d c IH]; intros Hall; simpl.
  - exists []. reflexivity.
  - destruct (Hall d) as (op & ->); [left|].
    destruct IH as (ops & ->); [intros d' Hd'; apply Hall; right; exact Hd'|].
    eexists. reflexivity.
Qed.

(** Conversely, the Bind step succeeds on an image that binds: [binds] is
    exactly the condition under which an image does not fail to bind. *)
Lemma binds_bind_image (known : list Image) (img : Image) :
  binds known img = true -> exists img', bind_image known img = inr img'.
Proof.
  unfold bind_image, binds. generalize (img_memory img).
  assert (Hsegs : forall segs mem,
            forallb (fun seg => forallb (entry_binds known (img_binary img) seg)
                                        (seg_chain seg)) segs = true ->
            exists mem', apply_segments (bind_segment known img) segs mem
                         = (None, mem')).
  { induction segs as [|seg rest IH]; intros mem Hall; simpl.
    - eexists. reflexivity.
    - simpl in Hall. apply andb_true_iff in Hall as [Hseg Hrest].
      unfold bind_segment at 1, apply_chain.
      destruct (decode_total (img_path img)
                  (symbol_address known (img_dependencies img))
                  (bin_external_symbols (img_binary img))
                  (img_base img + seg_start seg) (seg_size seg) (img_slide img)
                  (bind_entries (seg_chain seg))) as (ops & ->).
      + intros d Hd. apply list_elem_of_filter in Hd as [Hbind Hd].
        rewrite forallb_forall in Hseg.
        apply list_elem_of_In in Hd. specialize (Hseg d Hd).
        unfold entry_binds in Hseg. unfold resolve_slot, is_bind in *.
        destruct (kind d) as [T|ord addend]; [contradiction|].
        apply andb_true_iff in Hseg as [-> Hsym]. simpl.
        destruct (bin_external_symbols (img_binary img) !! ord) as [sym|];
          [|discriminate].
        destruct (exported_symbol_address _ _ _ Hsym) as (address & Haddr).
        unfold img_dependencies. rewrite Haddr. eexists. reflexivity.
      + apply IH. exact Hrest. }
  intros mem Hall. destruct (Hsegs _ mem Hall) as (mem' & ->).
  eexists. reflexivity.
Qed.

Lemma find_image_identity (known known' : list Image) (path : string) :
  identity <$> known = identity <$> known' ->
  img_binary <$> find_image known path = img_binary <$> find_image known' path.
Proof.
  revert known'. induction known as [|img rest IH]; intros [|img' rest'] Hid;
    try discriminate; [reflexivity|].
  rewrite !fmap_cons in Hid. injection Hid as Hpath Hbin Hrest.
  simpl. rewrite Hpath.
  destruct (decide (img_path img' = path)); simpl; [congruence|].
  apply IH. exact Hrest.
Qed.

Lemma exported_by_identity (known known' : list Image) (deps : list string)
    (sym : string) :
  identity <$> known = identity <$> known' ->
  exported_by known deps sym = exported_by known' deps sym.
Proof.
  intros Hid. unfold exported_by.
  induction deps as [|dep rest IH]; [reflexivity|].
  simpl. rewrite IH. f_equal.
  pose proof (find_image_identity known known' dep Hid) as Hfind.
  destruct (find_image known dep) as [d|], (find_image known' dep) as [d'|];
    simpl in Hfind; try discriminate; [|reflexivity].
  injection Hfind as ->. reflexivity.
Qed.

(** Whether an image binds depends on the identities of the images only. *)
Lemma binds_identity (known known' : list Image) (img img' : Image) :
  identity <$> known = identity <$> known' -> identity img = identity img' ->
  binds known img = binds known' img'.
Proof.
  intros Hid Himg. injection Himg as _ Hbin.
  unfold binds, img_segments. rewrite Hbin.
  induction (bin_segments (img_binary img')) as [|seg rest IH]; [reflexivity|].
  simpl. rewrite IH. f_equal.
  induction (seg_chain seg) as [|d c IHc]; [reflexivity|].
  simpl. rewrite IHc. f_equal.
  unfold entry_binds. destruct (kind d); [reflexivity|].
  destruct (bin_external_symbols (img_binary img') !! ordinal); [|reflexivity].
  rewrite (exported_by_identity known known' _ _ Hid). reflexivity.
Qed.

End BindFacts.

Section LoadAtomicity.

Import FixupChain Loader.

Variable binaries : gmap string Binary.
Variable compatible : option string -> Binary -> bool.
Variable map_image : list (Z * Z) -> string -> Binary -> option Z.

Local Abbreviation collect := (collect binaries compatible).
Local Abbreviation pipeline := (pipeline binaries compatible map_image).
Local Abbreviation load := (load binaries compatible map_image).

Lemma image_name_registered (p : Process) (i : nat) (name : string) :
  image_name_at p i = Some name -> name ∈ paths (registry p).
Proof.
  unfold image_name_at, paths. intros Hname.
  apply fmap_Some in Hname as (img & Hi & ->).
  apply list_elem_of_fmap_2. eapply list_elem_of_lookup_2. exact Hi.
Qed.

(** A pipeline that runs through has bound every node of the graph. *)
Lemma pipeline_binds_every_node (root : string) (p : Process)
    (t t' : Transaction) (img : Image) :
  collect root (begin p) = (None, t) ->
  pipeline root (begin p) = (None, t') ->
  img ∈ t_nodes t ->
  binds (registry p ++ t_nodes t) img = true.
Proof.
  intros Hcollect Hrun Hin.
  destruct (pipeline_spec binaries compatible map_image root p _ _ Hrun)
    as (e1 & t1 & Hc & _ & _ & _ & Hbound).
  rewrite Hcollect in Hc. injection Hc as <- <-.
  destruct (Hbound eq_refl) as (t3 & t4 & Hbind & Hreg & Hid).
  unfold bind_step, node_step in Hbind.
  destruct (for_each_node _ (t_nodes t3)) as [e4 nodes4] eqn:Hnodes.
  injection Hbind as -> _.
  apply for_each_node_done in Hnodes.
  apply list_elem_of_lookup in Hin as [k Hk].
  assert (Hk3 : exists n3, t_nodes t3 !! k = Some n3 /\ identity n3 = identity img).
  { assert (Hlook : (identity <$> t_nodes t3) !! k = Some (identity img)).
    { rewrite Hid, list_lookup_fmap, Hk. reflexivity. }
    rewrite list_lookup_fmap in Hlook.
    apply fmap_Some in Hlook as (n3 & Hn3 & Heq). exists n3. auto. }
  destruct Hk3 as (n3 & Hn3 & Hsame).
  destruct (Forall2_lookup_l _ _ _ _ _ Hnodes Hn3) as (n4 & _ & Hbound3).
  apply bind_image_binds in Hbound3.
  rewrite <- Hbound3. symmetry. apply binds_identity; [|exact Hsame].
  rewrite Hreg, !fmap_app, Hid. reflexivity.
Qed.

(** C1: a load attempt whose dependency graph holds an image that fails
    to bind returns a failure and leaves the process as it was: the
    registry counts as many images as before the attempt, and no name it
    lists is a path the attempt introduced. *)
Theorem failed_load_leaves_no_trace (root : string) (p : Process)
    (t : Transaction) (img : Image) :
  collect root (begin p) = (None, t) ->
  img ∈ t_nodes t ->
  binds (registry p ++ t_nodes t) img = false ->
  exists reason p',
    load root p = (Failed reason, p') /\
    p' = p /\
    image_count p' = image_count p /\
    forall i name, image_name_at p' i = Some name -> ~ name ∈ paths (t_nodes t).
Proof.
  intros Hcollect Hin Hfails.
  destruct (pipeline root (begin p)) as [[reason|] t'] eqn:Hrun.
  - destruct (pipeline_spec binaries compatible map_image root p _ _ Hrun)
      as (e1 & t1 & Hc & Hfrom & Hr & _).
    rewrite Hcollect in Hc. injection Hc as <- <-.
    exists reason, (unwind t'). unfold Loader.load. rewrite Hrun.
    rewrite (restorable_unwind p t' Hr).
    repeat split.
    intros i name Hname Hnew.
    apply image_name_registered in Hname.
    destruct (collected_restorable p t Hfrom) as (_ & _ & Hfresh).
    apply list_elem_of_fmap in Hnew as (n & -> & Hn).
    rewrite Forall_forall in Hfresh. exact (Hfresh n Hn Hname).
  - rewrite (pipeline_binds_every_node root p t t' img Hcollect Hrun Hin) in Hfails.
    discriminate.
Qed.

End LoadAtomicity.

Section LoadScenario.

Import FixupChain Loader Scenario.

Local Abbreviation load := (load installed any_version map_above).
Local Abbreviation collect := (collect installed any_version).

(** C1 (witness): the test's chain liba, libb, libc, where libb needs a
    symbol that libc does not export, loaded into a process running the
    main program. *)
Lemma failed_load_leaves_no_trace_witness :
  paths (t_nodes (collect "liba.dylib" (begin running)).2)
    = ["libc.dylib"; "libb.dylib"; "liba.dylib"] /\
  load "liba.dylib" running
    = (Failed (FixupFailure (UnresolvedSymbol "libb.dylib" 1 8)), running) /\
  image_count running = 1%nat /\
  image_name_at running 0 = Some "main.exe".
Proof.
  split; [vm_compute; reflexivity|].
  destruct (failed_load_leaves_no_trace installed any_version map_above
              "liba.dylib" running
              (collect "liba.dylib" (begin running)).2
              (new_image "libb.dylib" libb))
    as (reason & p' & Hload & -> & _ & _).
  - vm_compute. reflexivity.
  - vm_compute. right. left.
  - vm_compute. reflexivity.
  - split; [|split; reflexivity].
    rewrite Hload. f_equal. f_equal.
    assert (Hrun : (load "liba.dylib" running).1
                   = Failed (FixupFailure (UnresolvedSymbol "libb.dylib" 1 8)))
      by (vm_compute; reflexivity).
    rewrite Hload in Hrun. simpl in Hrun. injection Hrun as ->. reflexivity.
Defined.

End LoadScenario.

(** * Further facts about the bootstrap *)

Lemma filter_all {A} (P : A -> Prop) `{!forall x, Decision (P x)} (l : list A) :
  (forall x, x ∈ l -> P x) -> filter P l = l.
Proof.
  induction l as [|x l IH]; intros Hall; [reflexivity|].
  rewrite filter_cons_True by (apply Hall; left).
  f_equal. apply IH. intros y Hy. apply Hall. right. assumption.
Qed.

Lemma filter_nothing {A} (P : A -> Prop) `{!forall x, Decision (P x)} (l : list A) :
  (forall x, x ∈ l -> ~ P x) -> filter P l = [].
Proof.
  induction l as [|x l IH]; intros Hnone; [reflexivity|].
  rewrite filter_cons_False by (apply Hnone; left).
  apply IH. intros y Hy. apply Hnone. right. assumption.
Qed.

Lemma rebaseDyld_events_logged (ma : MachOAnalyzer) (diag : Diagnostics) (e : event) :
  e ∈ rebaseDyld_events ma diag -> logged_by_rebaseDyld e = true.
Proof.
  unfold rebaseDyld_events. intros He.
  apply elem_of_cons in He as [->|He]; [reflexivity|].
  apply elem_of_cons in He as [->|He]; [reflexivity|].
  destruct (hasChainedFixups ma); [|apply elem_of_nil in He; contradiction].
  apply elem_of_app in He as [He|He].
  - destruct (chainStarts ma); [apply elem_of_nil in He; contradiction|].
    apply list_elem_of_singleton in He. subst e. reflexivity.
  - apply elem_of_cons in He as [->|He]; [reflexivity|].
    destruct (hasError diag); [apply elem_of_nil in He; contradiction|].
    apply elem_of_cons in He as [->|He]; [reflexivity|].
    apply list_elem_of_fmap in He as (info & -> & _). reflexivity.
Qed.

Section MoreBootstrapFacts.

Variable decoder :
  MachOAnalyzer -> Diagnostics -> dyld_chained_starts_in_image ->
  Z -> list Z -> gmap Z Z -> Diagnostics * gmap Z Z.
Variable getSlide : Z -> Z.

Local Abbreviation rebaseDyld := (dyldbootstrap.rebaseDyld decoder).
Local Abbreviation fixups_outcome := (dyldbootstrap.fixups_outcome decoder).
Local Abbreviation start_bootstrap :=
  (dyldbootstrap.start_bootstrap decoder getSlide).
Local Abbreviation start_sim_bootstrap :=
  (dyldbootstrap.start_sim_bootstrap decoder getSlide).

(** X1: [rebaseDyld] returns exactly when the image has chained fixups and
    its fixups end without error; nothing else makes it abort, the results
    of [mprotect] being ignored. *)
Theorem rebaseDyld_returns_iff (ma : MachOLoaded) (s : proc_state) :
  returned (rebaseDyld ma s) = true <->
  hasChainedFixups ma = true /\
  hasError (fixups_outcome ma (st_memory s)).1 = false.
Proof.
  destruct (rebaseDyld_run decoder ma s) as (_ & Hret & _). cbv zeta in Hret.
  rewrite Hret, andb_true_iff, negb_true_iff. reflexivity.
Qed.

(** X2: [rebaseDyld] changes protections by whole pages and only through
    the downgrades the kernel carries out.  In a run that returns, every
    address from the start of such a read-only-data segment to the end of
    its last page is read-only, within the segment or past its end.  An
    address keeps its protection when the run aborts, and when for every
    read-only-data segment the kernel refuses the downgrade or the
    address lies outside the pages of the segment. *)
Theorem rebaseDyld_protection_frame (ma : MachOLoaded) (s : proc_state) (a : Z) :
  (returned (rebaseDyld ma s) = true ->
   forall info,
     info ∈ segments ma ->
     downgraded (st_page_shift s) (st_max_protection s) ma info a = true ->
     st_protection (final_state (rebaseDyld ma s)) a = VM_PROT_READ) /\
  (returned (rebaseDyld ma s) = false \/
   (forall info,
      info ∈ segments ma -> readOnlyData info = true ->
      downgrade_succeeds (st_page_shift s) (st_max_protection s) ma info = false \/
      in_range (segment_address ma info)
        (round_page (st_page_shift s) (segment_address ma info + vmSize info)
         - segment_address ma info) a = false) ->
   st_protection (final_state (rebaseDyld ma s)) a = st_protection s a).
Proof.
  destruct (rebaseDyld_run decoder ma s) as (_ & Hret & _ & _ & _ & Hprot).
  cbv zeta in Hret, Hprot. rewrite Hprot, <- Hret. split.
  - intros -> info Hin Hd. simpl.
    replace (existsb _ (segments ma)) with true; [reflexivity|].
    symmetry. apply existsb_exists. exists info.
    split; [apply list_elem_of_In; assumption|exact Hd].
  - intros [->|Houtside]; [reflexivity|].
    destruct (returned (rebaseDyld ma s)); [|reflexivity]. simpl.
    destruct (existsb _ (segments ma)) eqn:Hex; [|reflexivity].
    apply existsb_exists in Hex as (info & Hin & Hcover).
    unfold downgraded in Hcover.
    apply andb_true_iff in Hcover as [Hro Hcover].
    apply andb_true_iff in Hcover as [Hok Ha].
    apply list_elem_of_In in Hin.
    destruct (Houtside info Hin Hro) as [Hno|Hout]; congruence.
Qed.

(** X3: a run of [rebaseDyld] that returns has called [mprotect] once per
    read-only-data segment, in the order of the segments, each time to
    make the segment read-only; a run that aborts has not called it. *)
Theorem rebaseDyld_downgrades_in_order (ma : MachOLoaded) (s : proc_state) :
  filter is_mprotect (events_of (rebaseDyld ma) s) =
  if returned (rebaseDyld ma s)
  then downgrade_of ma <$> filter (fun info => readOnlyData info = true) (segments ma)
  else [].
Proof.
  rewrite events_of_rebaseDyld.
  destruct (rebaseDyld_run decoder ma s) as (_ & Hret & _). cbv zeta in Hret.
  rewrite Hret. set (diag := (fixups_outcome ma (st_memory s)).1).
  destruct (hasChainedFixups ma && negb (hasError diag)) eqn:Hok.
  - apply andb_true_iff in Hok as [Hc He]. apply negb_true_iff in He.
    rewrite (rebaseDyld_events_complete ma diag Hc He).
    rewrite filter_app, filter_cons_False by (simpl; auto).
    rewrite (filter_nothing _ (before_mach_init ma)).
    2:{ intros e Hin Hm. apply before_mach_init_events in Hin as (_ & Hn & _).
        rewrite Hn in Hm. exact Hm. }
    rewrite filter_all; [reflexivity|].
    intros e Hin. apply downgrades_are_mprotects in Hin as (Hm & _).
    rewrite Hm. exact I.
  - apply filter_nothing. intros e Hin Hm.
    apply (rebaseDyld_events_incomplete ma diag Hok) in Hin as [_ Hn].
    rewrite Hn in Hm. exact Hm.
Qed.

(** X6: the mach layer is initialized exactly once by a run of
    [rebaseDyld] that returns, and not at all by one that aborts. *)
Theorem mach_init_once_iff_returns (ma : MachOLoaded) (s : proc_state) :
  length (filter is_mach_init (events_of (rebaseDyld ma) s)) =
  if returned (rebaseDyld ma s) then 1%nat else 0%nat.
Proof.
  rewrite events_of_rebaseDyld.
  destruct (rebaseDyld_run decoder ma s) as (_ & Hret & _). cbv zeta in Hret.
  rewrite Hret. set (diag := (fixups_outcome ma (st_memory s)).1).
  destruct (hasChainedFixups ma && negb (hasError diag)) eqn:Hok.
  - apply andb_true_iff in Hok as [Hc He]. apply negb_true_iff in He.
    rewrite (rebaseDyld_events_complete ma diag Hc He).
    rewrite filter_app, filter_cons_True by exact I.
    rewrite (filter_nothing _ (before_mach_init ma)).
    2:{ intros e Hin Hm. apply before_mach_init_events in Hin as (Hne & _).
        destruct e; try contradiction; congruence. }
    rewrite filter_nothing; [reflexivity|].
    intros e Hin Hm. apply downgrades_are_mprotects in Hin as (Hmp & _).
    destruct e; try discriminate; contradiction.
  - rewrite filter_nothing; [reflexivity|]. intros e Hin Hm.
    apply (rebaseDyld_events_incomplete ma diag Hok) in Hin as [Hne _].
    destruct e; try contradiction; congruence.
Qed.

End MoreBootstrapFacts.

(** * Facts about the entry points *)

(** X7: the loop of [start] that looks for [apple] stops at the first NULL
    at or after [envp]: every entry before it, from [envp] on, is not
    NULL; and it runs off the argument area only if the area has no NULL
    from [envp] on. *)
Theorem skip_to_null_first_null (area : list Z) (i : nat) :
  (forall n, dyldbootstrap.skip_to_null area i = Some n ->
     (i <= n)%nat /\ area !! n = Some 0 /\
     forall j w, (i <= j < n)%nat -> area !! j = Some w -> w <> 0) /\
  (dyldbootstrap.skip_to_null area i = None ->
     forall j, (i <= j)%nat -> area !! j <> Some 0).
Proof.
  revert i. induction area as [|w rest IH]; intros i; simpl.
  - split; [discriminate|]. intros _ j _. rewrite lookup_nil. discriminate.
  - destruct i as [|i].
    + destruct (w =? 0) eqn:Hw.
      * apply Z.eqb_eq in Hw. subst w. split; [|discriminate].
        intros n [= <-]. repeat split; [lia|]. intros j v Hj. lia.
      * apply Z.eqb_neq in Hw. destruct (IH 0%nat) as [Hsome Hnone].
        destruct (dyldbootstrap.skip_to_null rest 0) as [m|]; simpl.
        -- split; [|discriminate]. intros n [= <-].
           destruct (Hsome m eq_refl) as (_ & Hm & Hbefore).
           repeat split; [lia|exact Hm|].
           intros [|j] v Hj Hv; simpl in Hv; [congruence|].
           apply (Hbefore j v); [lia|exact Hv].
        -- split; [discriminate|]. intros _ [|j] _; simpl; [congruence|].
           apply Hnone; [reflexivity|lia].
    + destruct (IH i) as [Hsome Hnone].
      destruct (dyldbootstrap.skip_to_null rest i) as [m|]; simpl.
      * split; [|discriminate]. intros n [= <-].
        destruct (Hsome m eq_refl) as (Hle & Hm & Hbefore).
        repeat split; [lia|exact Hm|].
        intros [|j] v Hj Hv; [lia|]. simpl in Hv.
        apply (Hbefore j v); [lia|exact Hv].
      * split; [discriminate|]. intros _ [|j] Hj; [lia|]. simpl.
        apply Hnone; [reflexivity|lia].
Qed.

Lemma skip_to_null_app (l k : list Z) (i : nat) :
  dyldbootstrap.skip_to_null (l ++ k) (length l + i) =
  (fun n => (length l + n)%nat) <$> dyldbootstrap.skip_to_null k i.
Proof.
  induction l as [|w l IH]; simpl.
  - destruct (dyldbootstrap.skip_to_null k i); reflexivity.
  - rewrite IH. destruct (dyldbootstrap.skip_to_null k i); reflexivity.
Qed.

Lemma skip_to_null_strings (env rest : list Z) :
  Forall (fun w => w <> 0) env ->
  dyldbootstrap.skip_to_null (env ++ 0 :: rest) 0 = Some (length env).
Proof.
  induction 1 as [|w env Hw _ IH]; [reflexivity|].
  simpl. apply Z.eqb_neq in Hw. rewrite Hw, IH. reflexivity.
Qed.

Section EntryFacts.

Variable decoder :
  MachOAnalyzer -> Diagnostics -> dyld_chained_starts_in_image ->
  Z -> list Z -> gmap Z Z -> Diagnostics * gmap Z Z.
Variable getSlide : Z -> Z.

Local Abbreviation rebaseDyld := (dyldbootstrap.rebaseDyld decoder).
Local Abbreviation fixups_outcome := (dyldbootstrap.fixups_outcome decoder).
Local Abbreviation start_bootstrap :=
  (dyldbootstrap.start_bootstrap decoder getSlide).
Local Abbreviation start_sim_bootstrap :=
  (dyldbootstrap.start_sim_bootstrap decoder getSlide).

(** Whether [rebaseDyld] returns depends on the memory it starts from
    only. *)
Lemma rebaseDyld_returns_by_memory (ma : MachOLoaded) (s s1 : proc_state) :
  st_memory s1 = st_memory s ->
  returned (rebaseDyld ma s1) = returned (rebaseDyld ma s).
Proof.
  intros Hmem.
  destruct (rebaseDyld_run decoder ma s) as (_ & Hret & _).
  destruct (rebaseDyld_run decoder ma s1) as (_ & Hret1 & _).
  cbv zeta in Hret, Hret1. rewrite Hret, Hret1, Hmem. reflexivity.
Qed.

(** What [start] comes to, up to the call of [dyld::_main]. *)
Lemma start_bootstrap_result (appsMachHeader argc : Z) (area : list Z)
    (ma : MachOLoaded) (startGlue : Z) (s : proc_state) :
  let o := start_bootstrap appsMachHeader argc area ma startGlue s in
  st_gSyscallHelpers (final_state o) = st_gSyscallHelpers s /\
  st_gProcessInfo (final_state o) = st_gProcessInfo s /\
  match dyldbootstrap.skip_to_null area (Z.to_nat (argc + 1)) with
  | Some null =>
      if returned (rebaseDyld ma s) then
        exists s',
          o = Returned {| ma_mainExecutableMH := appsMachHeader;
                          ma_mainExecutableSlide := getSlide appsMachHeader;
                          ma_argc := argc; ma_argv := O;
                          ma_envp := Z.to_nat (argc + 1);
                          ma_apple := S null; ma_startGlue := startGlue |} s'
      else returned o = false
  | None => returned o = false
  end.
Proof.
  cbv zeta.
  cbv beta iota delta [dyldbootstrap.start_bootstrap mbind M_bind seq emit].
  match goal with |- context [dyldbootstrap.rebaseDyld _ _ ?st] => set (s1 := st) end.
  rewrite <- (rebaseDyld_returns_by_memory ma s s1 eq_refl).
  destruct (rebaseDyld_run decoder ma s1) as (_ & _ & _ & Hsc & Hpi & _).
  cbv zeta in Hsc, Hpi.
  change (st_gSyscallHelpers s1) with (st_gSyscallHelpers s) in Hsc.
  change (st_gProcessInfo s1) with (st_gProcessInfo s) in Hpi.
  destruct (rebaseDyld ma s1) as [[] s2|s2]; simpl in Hsc, Hpi |- *.
  - destruct (dyldbootstrap.skip_to_null area (Z.to_nat (argc + 1))) as [null|];
      unfold ret, abort; simpl; repeat split; try assumption.
    eexists. reflexivity.
  - destruct (dyldbootstrap.skip_to_null area (Z.to_nat (argc + 1)));
      repeat split; assumption.
Qed.

(** X8: on an argument area whose [argc] is not negative and which
    holds a NULL from [envp] on, [start] gets to [dyld::_main] exactly
    when [rebaseDyld] returns: between the two it has no way to end the
    process. *)
Theorem start_reaches_main_iff (appsMachHeader argc : Z) (area : list Z)
    (ma : MachOLoaded) (startGlue : Z) (s : proc_state) :
  0 <= argc ->
  is_Some (dyldbootstrap.skip_to_null area (Z.to_nat (argc + 1))) ->
  returned (start_bootstrap appsMachHeader argc area ma startGlue s)
  = returned (rebaseDyld ma s).
Proof.
  intros _ [null Hnull].
  destruct (start_bootstrap_result appsMachHeader argc area ma startGlue s)
    as (_ & _ & Hres). cbv zeta in Hres. rewrite Hnull in Hres.
  destruct (returned (rebaseDyld ma s)).
  - destruct Hres as (s' & ->). reflexivity.
  - exact Hres.
Qed.

(** X9: on the argument area the kernel sets up ([argc] argument strings,
    a NULL, the environment strings, a NULL, then the apple strings),
    [start] hands [dyld::_main] the position just past the arguments' NULL
    as [envp] and the position just past the environment's NULL as
    [apple], with the program's header, its slide, [argc], [argv] and the
    start glue. *)
Theorem start_finds_envp_and_apple (appsMachHeader argc : Z)
    (argv env rest : list Z) (ma : MachOLoaded) (startGlue : Z) (s : proc_state) :
  argc = Z.of_nat (length argv) ->
  Forall (fun w => w <> 0) env ->
  returned (rebaseDyld ma s) = true ->
  exists s',
    start_bootstrap appsMachHeader argc (argv ++ 0 :: env ++ 0 :: rest) ma
      startGlue s =
    Returned {| ma_mainExecutableMH := appsMachHeader;
                ma_mainExecutableSlide := getSlide appsMachHeader;
                ma_argc := argc; ma_argv := O;
                ma_envp := S (length argv);
                ma_apple := S (length argv) + S (length env);
                ma_startGlue := startGlue |} s'.
Proof.
  intros Hargc Henv Hret.
  destruct (start_bootstrap_result appsMachHeader argc
              (argv ++ 0 :: env ++ 0 :: rest) ma startGlue s) as (_ & _ & Hres).
  cbv zeta in Hres. rewrite Hret in Hres.
  assert (Henvp : Z.to_nat (argc + 1) = (length argv + 1)%nat) by lia.
  rewrite Henvp in Hres.
  change (argv ++ 0 :: env ++ 0 :: rest)
    with (argv ++ [0] ++ env ++ 0 :: rest) in Hres.
  rewrite skip_to_null_app in Hres.
  change (dyldbootstrap.skip_to_null ([0] ++ env ++ 0 :: rest) 1)
    with (S <$> dyldbootstrap.skip_to_null (env ++ 0 :: rest) 0) in Hres.
  rewrite (skip_to_null_strings env rest Henv) in Hres. simpl in Hres.
  destruct Hres as (s' & Hrun). exists s'.
  etransitivity; [exact Hrun|]. repeat f_equal; lia.
Qed.

End EntryFacts.

(** A trace with one call of [__guard_setup], after [pre]: it is counted
    once and comes after everything [rebaseDyld] logged. *)
Lemma guard_setup_once (pre post : list event) (apple : nat) :
  (forall e, e ∈ pre -> is_guard_setup e = false) ->
  (forall e, e ∈ post -> is_guard_setup e = false /\ logged_by_rebaseDyld e = false) ->
  length (filter is_guard_setup (pre ++ E_guard_setup apple :: post)) = 1%nat /\
  forall i j e a,
    (pre ++ E_guard_setup apple :: post) !! i = Some (E_guard_setup a) ->
    (pre ++ E_guard_setup apple :: post) !! j = Some e ->
    logged_by_rebaseDyld e = true -> (j < i)%nat.
Proof.
  intros Hpre Hpost. split.
  - rewrite filter_app, filter_cons_True by exact I.
    rewrite (filter_nothing _ pre), (filter_nothing _ post); [reflexivity| |].
    + intros e He Hg. apply Hpost in He as [He _]. rewrite He in Hg. exact Hg.
    + intros e He Hg. apply Hpre in He. rewrite He in Hg. exact Hg.
  - intros i j e a Hi Hj Hlog.
    assert (i = length pre) as ->.
    { apply lookup_around in Hi as [[_ Hin]|[[Hi _]|[_ Hin]]].
      - apply Hpre in Hin. discriminate.
      - assumption.
      - apply Hpost in Hin as [Hin _]. discriminate. }
    apply lookup_around in Hj as [[Hlt _]|[[_ ->]|[_ Hin]]].
    + assumption.
    + discriminate.
    + apply Hpost in Hin as [_ Hin]. congruence.
Qed.

Lemma no_guard_setup (tr : list event) :
  (forall e, e ∈ tr -> is_guard_setup e = false) ->
  length (filter is_guard_setup tr) = 0%nat /\
  forall i j e a,
    tr !! i = Some (E_guard_setup a) -> tr !! j = Some e ->
    logged_by_rebaseDyld e = true -> (j < i)%nat.
Proof.
  intros Hnone. split.
  - rewrite filter_nothing; [reflexivity|].
    intros e He Hg. apply Hnone in He. rewrite He in Hg. exact Hg.
  - intros i j e a Hi. apply list_elem_of_lookup_2, Hnone in Hi. discriminate.
Qed.

Lemma rebaseDyld_events_no_guard (ma : MachOAnalyzer) (diag : Diagnostics) (e : event) :
  e ∈ rebaseDyld_events ma diag -> is_guard_setup e = false.
Proof.
  intros He. apply rebaseDyld_events_logged in He.
  destruct e; try discriminate; reflexivity.
Qed.

Section EntryOrderFacts.

Variable decoder :
  MachOAnalyzer -> Diagnostics -> dyld_chained_starts_in_image ->
  Z -> list Z -> gmap Z Z -> Diagnostics * gmap Z Z.
Variable getSlide : Z -> Z.

Local Abbreviation rebaseDyld := (dyldbootstrap.rebaseDyld decoder).
Local Abbreviation fixups_outcome := (dyldbootstrap.fixups_outcome decoder).
Local Abbreviation start_bootstrap :=
  (dyldbootstrap.start_bootstrap decoder getSlide).
Local Abbreviation start_sim_bootstrap :=
  (dyldbootstrap.start_sim_bootstrap decoder getSlide).

(** X10: on both entry paths the stack canary is set up, by
    [__guard_setup], exactly once when the bootstrap gets to
    [dyld::_main] and not at all when it aborts; and it is set up after
    everything [rebaseDyld] does: the fixups, the initialization of the
    mach layer and every change of protection. *)
Theorem guard_setup_after_rebaseDyld (appsMachHeader argc : Z) (area : list Z)
    (ma : MachOLoaded) (startGlue : Z) (s : proc_state)
    (argc' : Z) (argv envp apple : nat) (mainExecutableMH : Z)
    (ma' : MachOLoaded) (dyldSlide sc sc_processInfo startGlue' : Z)
    (s' : proc_state) :
  let start_run := start_bootstrap appsMachHeader argc area ma startGlue in
  let sim_run := start_sim_bootstrap argc' argv envp apple mainExecutableMH ma'
                   dyldSlide sc sc_processInfo startGlue' in
  (length (filter is_guard_setup (events_of start_run s)) =
     (if returned (start_run s) then 1%nat else 0%nat) /\
   forall i j e a,
     events_of start_run s !! i = Some (E_guard_setup a) ->
     events_of start_run s !! j = Some e ->
     logged_by_rebaseDyld e = true -> (j < i)%nat) /\
  (length (filter is_guard_setup (events_of sim_run s')) =
     (if returned (sim_run s') then 1%nat else 0%nat) /\
   forall i j e a,
     events_of sim_run s' !! i = Some (E_guard_setup a) ->
     events_of sim_run s' !! j = Some e ->
     logged_by_rebaseDyld e = true -> (j < i)%nat).
Proof.
  cbv zeta. split.
  - destruct (start_bootstrap_run decoder getSlide appsMachHeader argc area ma
                startGlue s) as (Htr & _).
    destruct (start_bootstrap_result decoder getSlide appsMachHeader argc area ma
                startGlue s) as (_ & _ & Hres).
    destruct (rebaseDyld_run decoder ma s) as (_ & Hret & _).
    cbv zeta in Htr, Hres, Hret. rewrite Htr, <- Hret. clear Htr.
    set (diag := (fixups_outcome ma (st_memory s)).1) in *.
    unfold after_rebaseDyld_start.
    destruct (dyldbootstrap.skip_to_null area (Z.to_nat (argc + 1))) as [null|];
      destruct (returned (rebaseDyld ma s)).
    + destruct Hres as (s2 & ->). simpl returned. cbv iota.
      change (E_kdebug_trace_dyld_marker :: rebaseDyld_events ma diag ++
                [E_guard_setup (S null); E_getSlide appsMachHeader])
        with ((E_kdebug_trace_dyld_marker :: rebaseDyld_events ma diag) ++
                E_guard_setup (S null) :: [E_getSlide appsMachHeader]).
      apply guard_setup_once.
      * intros e He. apply elem_of_cons in He as [->|He]; [reflexivity|].
        eapply rebaseDyld_events_no_guard. exact He.
      * intros e He. each_event He.
    + rewrite Hres, app_nil_r. apply no_guard_setup.
      intros e He. apply elem_of_cons in He as [->|He]; [reflexivity|].
      eapply rebaseDyld_events_no_guard. exact He.
    + rewrite Hres, app_nil_r. apply no_guard_setup.
      intros e He. apply elem_of_cons in He as [->|He]; [reflexivity|].
      eapply rebaseDyld_events_no_guard. exact He.
    + rewrite Hres, app_nil_r. apply no_guard_setup.
      intros e He. apply elem_of_cons in He as [->|He]; [reflexivity|].
      eapply rebaseDyld_events_no_guard. exact He.
  - destruct (start_sim_bootstrap_run decoder getSlide argc' argv envp apple
                mainExecutableMH ma' dyldSlide sc sc_processInfo startGlue' s')
      as (Htr & Hret & _).
    cbv zeta in Htr, Hret. rewrite Htr, Hret. clear Htr Hret.
    set (diag := (fixups_outcome ma' (st_memory s')).1).
    destruct (hasChainedFixups ma' && negb (hasError diag)).
    + unfold after_rebaseDyld_start_sim.
      apply (guard_setup_once
               (E_global_write gSyscallHelpers sc :: rebaseDyld_events ma' diag)
               [E_getProcessInfo sc; E_global_write gProcessInfo sc_processInfo;
                E_syncProcessInfo; E_getSlide mainExecutableMH] apple).
      * intros e He. apply elem_of_cons in He as [->|He]; [reflexivity|].
        eapply rebaseDyld_events_no_guard. exact He.
      * intros e He. each_event He.
    + rewrite app_nil_r. apply no_guard_setup.
      intros e He. apply elem_of_cons in He as [->|He]; [reflexivity|].
      eapply rebaseDyld_events_no_guard. exact He.
Qed.

End EntryOrderFacts.

Section SimulatorFacts.

Variable decoder :
  MachOAnalyzer -> Diagnostics -> dyld_chained_starts_in_image ->
  Z -> list Z -> gmap Z Z -> Diagnostics * gmap Z Z.
Variable getSlide : Z -> Z.

Local Abbreviation rebaseDyld := (dyldbootstrap.rebaseDyld decoder).
Local Abbreviation fixups_outcome := (dyldbootstrap.fixups_outcome decoder).
Local Abbreviation start_sim_bootstrap :=
  (dyldbootstrap.start_sim_bootstrap decoder getSlide).



End SimulatorFacts.

(** * Facts about the test dlopen-fail-cleanly *)

Section TestFacts.

Context {process handle : Type}.
Variable RUN_DIR : string.
Variable dlopen : string -> Z -> process -> option handle * process.
Variable _dyld_image_count : process -> nat.
Variable _dyld_get_image_name : process -> nat -> option string.

Import DlopenFailCleanly.

Local Abbreviation liba_path := (DlopenFailCleanly.liba_path RUN_DIR).
Local Abbreviation residue := (DlopenFailCleanly.residue RUN_DIR).
Local Abbreviation check_images :=
  (DlopenFailCleanly.check_images RUN_DIR _dyld_get_image_name).
Local Abbreviation main :=
  (DlopenFailCleanly.main RUN_DIR dlopen _dyld_image_count _dyld_get_image_name).
Local Abbreviation clean := (clean_names _dyld_get_image_name residue).
Local Abbreviation logged := (logged_names _dyld_get_image_name).

Lemma clean_names_cons (p : process) (i n : nat) (name : string) :
  _dyld_get_image_name p i = Some name -> strstr name residue = None ->
  clean p (S i) n -> clean p i (S n).
Proof.
  intros Hname Hnone Hrest [|k] Hk.
  - rewrite Nat.add_0_r. eauto.
  - rewrite <- Nat.add_succ_comm. apply Hrest. lia.
Qed.

(** The loop ends in one of three ways, each fixed by the first index
    whose path is NULL or holds the residue. *)
Lemma check_images_spec (p : process) (n i : nat) :
  match (check_images p n i).1 with
  | PASS msg =>
      msg = "Success" /\ (check_images p n i).2 = logged p i n /\ clean p i n
  | FAIL msg arg =>
      exists k name,
        (k < n)%nat /\ msg = "Found unexpected loaded image: %s" /\
        arg = Some name /\
        _dyld_get_image_name p (i + k)%nat = Some name /\
        is_Some (strstr name residue) /\
        clean p i k /\ (check_images p n i).2 = logged p i (S k)
  | NULL_PATH =>
      exists k,
        (k < n)%nat /\ _dyld_get_image_name p (i + k)%nat = None /\
        clean p i k /\ (check_images p n i).2 = logged p i (S k)
  end.
Proof.
  revert i. induction n as [|n IH]; intros i; simpl.
  - repeat split. intros k Hk. lia.
  - destruct (_dyld_get_image_name p i) as [name|] eqn:Hname; simpl.
    2:{ exists 0%nat. rewrite Nat.add_0_r.
        repeat split; [lia|assumption| |].
        - intros k Hk. lia.
        - unfold logged_names. simpl. rewrite Hname. reflexivity. }
    destruct (strstr name residue) as [at_|] eqn:Hstr; simpl.
    { exists 0%nat, name. rewrite Nat.add_0_r.
      repeat split; [lia|assumption|eauto| |].
      - intros k Hk. lia.
      - unfold logged_names. simpl. rewrite Hname. reflexivity. }
    specialize (IH (S i)).
    destruct (check_images p n (S i)) as [r log]. simpl in IH |- *.
    assert (Hlog : forall m, log = logged p (S i) m ->
                             (i, Some name) :: log = logged p i (S m)).
    { intros m ->. unfold logged_names. simpl. rewrite Hname. reflexivity. }
    destruct r as [msg|msg arg|].
    + destruct IH as (-> & Hl & Hc). repeat split; [auto|].
      apply (clean_names_cons p i n name); assumption.
    + destruct IH as (k & name' & Hk & -> & -> & Hn & Hs & Hc & Hl).
      exists (S k), name'. rewrite <- Nat.add_succ_comm.
      repeat split; [lia|assumption|assumption| |auto].
      apply (clean_names_cons p i k name); assumption.
    + destruct IH as (k & Hk & Hn & Hc & Hl).
      exists (S k). rewrite <- Nat.add_succ_comm.
      repeat split; [lia|assumption| |auto].
      apply (clean_names_cons p i k name); assumption.
Qed.

Lemma logged_names_length (p : process) (i n : nat) :
  length (logged p i n) = n.
Proof. unfold logged_names. rewrite length_fmap, length_seq. reflexivity. Qed.

(** X12: the test passes exactly when [dlopen] returned NULL and every
    image below the count, taken after the call and converted to [int],
    has a path that does not hold [RUN_DIR "/lib"].  It fails with the
    message that [dlopen] was expected to fail exactly when [dlopen]
    returned a handle, and then no image is looked at. *)
Theorem main_passes_iff (p : process) :
  let h := (dlopen liba_path RTLD_NOW p).1 in
  let p' := (dlopen liba_path RTLD_NOW p).2 in
  let count := to_int (Z.of_nat (_dyld_image_count p')) in
  ((main p).1.1 = PASS "Success" <->
     h = None /\ clean p' 0 (Z.to_nat count)) /\
  ((main p).1.1 = FAIL "dlopen(liba.dylib) expected to fail but did not" None <->
     is_Some h) /\
  (is_Some h -> (main p).1.2 = []) /\
  (main p).2 = p'.
Proof.
  cbv zeta. unfold DlopenFailCleanly.main.
  destruct (dlopen liba_path RTLD_NOW p) as [[h|] p']; simpl.
  { repeat split; try discriminate; eauto.
    intros [Hnone _]. discriminate. }
  pose proof (check_images_spec p' (Z.to_nat (to_int (Z.of_nat (_dyld_image_count p')))) 0)
    as Hspec.
  destruct (check_images p' _ 0) as [r log]. simpl in Hspec |- *.
  repeat split.
  - destruct r; try discriminate. apply Hspec.
  - intros [_ Hclean]. destruct r as [msg|msg arg|].
    + destruct Hspec as (-> & _). reflexivity.
    + destruct Hspec as (k & name & Hk & _ & _ & Hn & [at_ Hs] & _).
      destruct (Hclean k Hk) as (name' & Hn' & Hs'). simpl in Hn, Hn'. congruence.
    + destruct Hspec as (k & Hk & Hn & _).
      destruct (Hclean k Hk) as (name' & Hn' & _). simpl in Hn, Hn'. congruence.
  - intros Hfail. subst r.
    destruct Hspec as (k & name & _ & _ & Habs & _). discriminate.
  - intros [h Hh]. discriminate.
  - intros [h Hh]. discriminate.
Qed.

(** X13: the test fails with the message of an unexpected image, naming
    [name], exactly when [dlopen] returned NULL and [name] is the path of
    the first image below the count whose path holds [RUN_DIR "/lib"], all
    images before it having paths.  Whatever the outcome, the log lists
    the indices from 0 on, in order and without a gap, each with the path
    the image had after the call of [dlopen]. *)
Theorem main_reports_first_residue (p : process) (name : string) :
  let h := (dlopen liba_path RTLD_NOW p).1 in
  let p' := (dlopen liba_path RTLD_NOW p).2 in
  let count := to_int (Z.of_nat (_dyld_image_count p')) in
  ((main p).1.1 = FAIL "Found unexpected loaded image: %s" (Some name) <->
     h = None /\
     exists k, (k < Z.to_nat count)%nat /\
               _dyld_get_image_name p' k = Some name /\
               is_Some (strstr name residue) /\ clean p' 0 k) /\
  (main p).1.2 = logged p' 0 (length (main p).1.2) /\
  (length (main p).1.2 <= Z.to_nat count)%nat.
Proof.
  cbv zeta. unfold DlopenFailCleanly.main.
  destruct (dlopen liba_path RTLD_NOW p) as [[h|] p']; simpl.
  { repeat split; try discriminate; try lia.
    intros [Hnone _]. discriminate. }
  pose proof (check_images_spec p' (Z.to_nat (to_int (Z.of_nat (_dyld_image_count p')))) 0)
    as Hspec.
  destruct (check_images p' _ 0) as [r log]. simpl in Hspec |- *.
  split; [split|].
  - intros ->. split; [reflexivity|].
    destruct Hspec as (k & name' & Hk & _ & [= <-] & Hn & Hs & Hc & _).
    exists k. auto.
  - intros [_ (k & Hk & Hn & [at_ Hs] & Hc)]. destruct r as [msg|msg arg|].
    + destruct Hspec as (_ & _ & Hclean).
      destruct (Hclean k Hk) as (name' & Hn' & Hs'). simpl in Hn'. congruence.
    + destruct Hspec as (k' & name' & Hk' & -> & -> & Hn' & [at' Hs'] & Hc' & _).
      simpl in Hn'.
      destruct (Nat.lt_trichotomy k k') as [Hlt|[->|Hgt]].
      * destruct (Hc' k Hlt) as (n2 & Hn2 & Hs2). simpl in Hn2. congruence.
      * congruence.
      * destruct (Hc k' Hgt) as (n2 & Hn2 & Hs2). simpl in Hn2. congruence.
    + destruct Hspec as (k' & Hk' & Hn' & Hc' & _). simpl in Hn'.
      destruct (Nat.lt_trichotomy k k') as [Hlt|[->|Hgt]].
      * destruct (Hc' k Hlt) as (n2 & Hn2 & Hs2). simpl in Hn2. congruence.
      * congruence.
      * destruct (Hc k' Hgt) as (n2 & Hn2 & Hs2). simpl in Hn2. congruence.
  - destruct r as [msg|msg arg|].
    + destruct Hspec as (_ & -> & _). rewrite logged_names_length. split; [reflexivity|lia].
    + destruct Hspec as (k & name' & Hk & _ & _ & _ & _ & _ & ->).
      rewrite logged_names_length. split; [reflexivity|lia].
    + destruct Hspec as (k & Hk & _ & _ & ->).
      rewrite logged_names_length. split; [reflexivity|lia].
Qed.

Lemma to_int_bound (c : nat) : (Z.to_nat (to_int (Z.of_nat c)) <= c)%nat.
Proof.
  unfold to_int.
  pose proof (Z.mod_pos_bound (Z.of_nat c) (2 ^ 32) ltac:(lia)) as Hm.
  pose proof (Z.mod_le (Z.of_nat c) (2 ^ 32) ltac:(lia) ltac:(lia)) as Hle.
  destruct (Z.of_nat c mod 2 ^ 32 <? 2 ^ 31); lia.
Qed.

(** X14: when every index below the image count has a path, the test
    never hands a NULL path to [strstr], whatever the count: the
    conversion of the count to [int] can only shorten the loop. *)
Theorem main_never_null_path (p : process) :
  (forall q i, (i < _dyld_image_count q)%nat ->
               is_Some (_dyld_get_image_name q i)) ->
  (main p).1.1 <> NULL_PATH.
Proof.
  intros Hnames. unfold DlopenFailCleanly.main.
  destruct (dlopen liba_path RTLD_NOW p) as [[h|] p']; simpl; [discriminate|].
  pose proof (check_images_spec p' (Z.to_nat (to_int (Z.of_nat (_dyld_image_count p')))) 0)
    as Hspec.
  destruct (check_images p' _ 0) as [r log]. simpl in Hspec |- *.
  intros ->. destruct Hspec as (k & Hk & Hn & _). simpl in Hn.
  pose proof (to_int_bound (_dyld_image_count p')) as Hb.
  destruct (Hnames p' k ltac:(lia)) as [name Hname]. congruence.
Qed.

End TestFacts.

Lemma to_int_small (c : Z) :
  0 <= c < 2 ^ 31 -> DlopenFailCleanly.to_int c = c.
Proof.
  intros Hc. unfold DlopenFailCleanly.to_int.
  rewrite Z.mod_small by lia.
  destruct (c <? 2 ^ 31) eqn:Hlt; [reflexivity|lia].
Qed.

Lemma clean_names_registry (needle : string) (p : Loader.Process) :
  clean_names Loader.image_name_at needle p 0 (Loader.image_count p) <->
  no_image_named needle p.
Proof.
  unfold clean_names, no_image_named, Loader.image_name_at, Loader.image_count.
  split.
  - intros Hclean i name Hname.
    assert (Hi : (i < length (Loader.registry p))%nat).
    { apply fmap_Some in Hname as (img & Himg & _).
      eapply lookup_lt_Some. exact Himg. }
    destruct (Hclean i Hi) as (name' & Hname' & Hnone). simpl in Hname'.
    congruence.
  - intros Hnone k Hk. simpl.
    destruct (lookup_lt_is_Some_2 (Loader.registry p) k Hk) as [img Himg].
    exists (Loader.img_path img). rewrite Himg. split; [reflexivity|].
    apply (Hnone k). rewrite Himg. reflexivity.
Qed.

Section LoaderTestFacts.

Variable binaries : gmap string Loader.Binary.
Variable compatible : option string -> Loader.Binary -> bool.
Variable map_image : list (Z * Z) -> string -> Loader.Binary -> option Z.

Import DlopenFailCleanly.

Local Abbreviation load := (Loader.load binaries compatible map_image).
Local Abbreviation loader_main :=
  (DlopenFailCleanly.loader_main binaries compatible map_image).

(** X15: run against the load engine, when the load of liba fails the
    test leaves the process as it found it, and its verdict is decided by
    the images that were there before the call: it passes exactly when
    none of them has a path holding [RUN_DIR "/lib"], having logged every
    image of the process. *)
Theorem test_verdict_after_failed_load (RUN_DIR : string) (p : Loader.Process)
    (reason : Loader.load_error) :
  (load (liba_path RUN_DIR) p).1 = Loader.Failed reason ->
  Z.of_nat (Loader.image_count p) < 2 ^ 31 ->
  (loader_main RUN_DIR p).2 = p /\
  ((loader_main RUN_DIR p).1.1 = PASS "Success" <->
   no_image_named (residue RUN_DIR) p) /\
  (no_image_named (residue RUN_DIR) p ->
   (loader_main RUN_DIR p).1.2 =
     logged_names Loader.image_name_at p 0 (Loader.image_count p)).
Proof.
  intros Hfail Hcount.
  unfold DlopenFailCleanly.loader_main, main, loader_dlopen.
  destruct (load (liba_path RUN_DIR) p) as [[h|r] p'] eqn:Hload;
    [discriminate|].
  apply (load_failure_restores binaries compatible map_image) in Hload as ->.
  rewrite to_int_small by lia. rewrite Nat2Z.id.
  pose proof (check_images_spec RUN_DIR Loader.image_name_at p
                (Loader.image_count p) 0) as Hspec.
  destruct (check_images RUN_DIR Loader.image_name_at p _ 0) as [r' log].
  simpl in Hspec |- *.
  split; [reflexivity|].
  rewrite <- clean_names_registry.
  assert (Hpass : clean_names Loader.image_name_at (residue RUN_DIR) p 0
                    (Loader.image_count p) ->
                  r' = PASS "Success" /\
                  log = logged_names Loader.image_name_at p 0 (Loader.image_count p)).
  { intros Hclean. destruct r' as [msg|msg arg|].
    - destruct Hspec as (-> & -> & _). split; reflexivity.
    - destruct Hspec as (k & name & Hk & _ & _ & Hn & [at_ Hs] & _).
      destruct (Hclean k Hk) as (name' & Hn' & Hs'). simpl in Hn, Hn'. congruence.
    - destruct Hspec as (k & Hk & Hn & _).
      destruct (Hclean k Hk) as (name' & Hn' & _). simpl in Hn, Hn'. congruence. }
  split; [split|].
  - intros ->. apply Hspec.
  - intros Hclean. apply Hpass. exact Hclean.
  - intros Hclean. apply Hpass. exact Hclean.
Qed.

End LoaderTestFacts.

(** * The bootstrap with the decoder of the fixup chains *)

Lemma write_slots_frame (ops : list FixupChain.slot_operation) (m : gmap Z Z)
    (a : Z) :
  a ∉ FixupChain.op_address <$> ops ->
  foldl FixupChain.write_slot m ops !! a = m !! a.
Proof.
  revert m. induction ops as [|op ops IH]; intros m Hout; [reflexivity|].
  simpl. rewrite fmap_cons in Hout. apply not_elem_of_cons in Hout as [Hne Hout].
  rewrite IH by assumption. unfold FixupChain.write_slot.
  apply lookup_insert_ne. congruence.
Qed.

(** Over chains of rebase entries within their segments the decoder
    succeeds, whatever the table of bind targets; it writes the slots of
    the chains in order, each rebase entry with its target plus the
    slide. *)
Lemma fixupAllChainedFixups_rebases (ma : MachOAnalyzer) (diag : Diagnostics)
    (starts : dyld_chained_starts_in_image) (slide : Z) (bindTargets : list Z)
    (mem : gmap Z Z) :
  rebases_in_bounds starts ->
  exists ops,
    fixupAllChainedFixups ma diag starts slide bindTargets mem
      = (diag, foldl FixupChain.write_slot mem ops) /\
    FixupChain.op_address <$> ops = chain_slot_addresses ma starts /\
    forall sc d T,
      sc ∈ starts -> d ∈ FixupChain.chain sc ->
      FixupChain.kind d = FixupChain.rebase T ->
      {| FixupChain.op_address :=
           mh_address ma + FixupChain.segment_offset sc + FixupChain.slot_offset d;
         FixupChain.op_value := T + slide |} ∈ ops.
Proof.
  revert mem. induction starts as [|sc rest IH]; intros mem Hall.
  - exists []. repeat split.
    intros sc d T Hsc. apply elem_of_nil in Hsc. contradiction.
  - assert (Hrest : rebases_in_bounds rest).
    { intros sc' d Hsc' Hd. apply Hall; [right|]; assumption. }
    assert (Hres : forall d, d ∈ FixupChain.chain sc ->
              exists T,
                FixupChain.kind d = FixupChain.rebase T /\
                FixupChain.resolve_slot "dyld" Some bindTargets
                  (mh_address ma + FixupChain.segment_offset sc)
                  (FixupChain.segment_size sc) slide d
                = inr {| FixupChain.op_address :=
                           mh_address ma + FixupChain.segment_offset sc
                           + FixupChain.slot_offset d;
                         FixupChain.op_value := T + slide |}).
    { intros d Hd. destruct (Hall sc d) as [Hreb Hin]; [left|assumption|].
      unfold FixupChain.resolve_slot, FixupChain.is_rebase in *. rewrite Hin.
      destruct (FixupChain.kind d) as [T|ord addend]; [|discriminate].
      exists T. split; reflexivity. }
    destruct (decode_total "dyld" Some bindTargets
                (mh_address ma + FixupChain.segment_offset sc)
                (FixupChain.segment_size sc) slide (FixupChain.chain sc))
      as (ops1 & Hdec).
    { intros d Hd. destruct (Hres d Hd) as (T & _ & ->). eexists. reflexivity. }
    pose proof (decode_operations _ _ _ _ _ _ _ _ Hdec) as Hops1.
    simpl. unfold FixupChain.apply_chain. rewrite Hdec.
    destruct (IH (foldl FixupChain.write_slot mem ops1) Hrest)
      as (ops2 & -> & Haddr & Hops).
    exists (ops1 ++ ops2). split; [rewrite foldl_app; reflexivity|]. split.
    + rewrite fmap_app, Haddr. unfold chain_slot_addresses.
      rewrite ?bind_cons. f_equal.
      clear -Hops1. induction Hops1 as [|d op c ops Hd _ IHall]; [reflexivity|].
      rewrite !fmap_cons, IHall. f_equal.
      apply resolve_slot_address in Hd. exact Hd.
    + intros sc' d T Hsc Hd Hk. apply elem_of_app.
      apply elem_of_cons in Hsc as [->|Hsc]; [left|right; eauto].
      destruct (Hres d Hd) as (T' & Hk' & Hop).
      assert (T' = T) as -> by congruence.
      clear -Hops1 Hd Hop.
      induction Hops1 as [|d' op c ops Hd' _ IHall].
      * apply elem_of_nil in Hd. contradiction.
      * apply elem_of_cons in Hd as [->|Hd].
        -- apply elem_of_cons. left. congruence.
        -- right. apply IHall. assumption.
Qed.

Section DecodedBootstrap.

Local Abbreviation rebaseDyld := (dyldbootstrap.rebaseDyld fixupAllChainedFixups).

(** X16: with the decoder of the fixup chains in the place of
    [fixupAllChainedFixups], [rebaseDyld] of an image whose chains hold
    only rebase entries within their segments, no two at one address,
    returns, and leaves in every slot of the chains the target of its
    entry plus the load address of the image; memory outside the slots
    is as it was. *)
Theorem rebaseDyld_rebases_every_slot (ma : MachOLoaded) (s : proc_state)
    (starts : dyld_chained_starts_in_image) :
  is_pointer (mh_address ma) ->
  hasChainedFixups ma = true ->
  chainStarts ma = inr starts ->
  rebases_in_bounds starts ->
  NoDup (chain_slot_addresses ma starts) ->
  let mem' := st_memory (final_state (rebaseDyld ma s)) in
  returned (rebaseDyld ma s) = true /\
  (forall sc d T,
     sc ∈ starts -> d ∈ FixupChain.chain sc ->
     FixupChain.kind d = FixupChain.rebase T ->
     mem' !! (mh_address ma + FixupChain.segment_offset sc
              + FixupChain.slot_offset d) = Some (T + mh_address ma)) /\
  (forall a, a ∉ chain_slot_addresses ma starts -> mem' !! a = st_memory s !! a).
Proof.
  intros Hp Hc Hs Hall Hnd. cbv zeta.
  destruct (rebaseDyld_run fixupAllChainedFixups ma s) as (_ & Hret & Hmem & _).
  cbv zeta in Hret, Hmem. rewrite Hc in Hret, Hmem.
  unfold dyldbootstrap.fixups_outcome in Hret, Hmem. rewrite Hs in Hret, Hmem.
  assert (Hslide : dyldbootstrap.slide_of ma = mh_address ma).
  { unfold dyldbootstrap.slide_of. apply to_uintptr_to_long. assumption. }
  rewrite Hslide in Hret, Hmem.
  destruct (fixupAllChainedFixups_rebases ma None starts (mh_address ma) []
              (st_memory s) Hall) as (ops & Hrun & Haddr & Hops).
  rewrite Hrun in Hret, Hmem. simpl in Hret, Hmem. rewrite Hmem.
  split; [exact Hret|]. split.
  - intros sc d T Hsc Hd Hk.
    apply (write_slots_lookup ops (st_memory s) _ ltac:(rewrite Haddr; exact Hnd)
             (Hops sc d T Hsc Hd Hk)).
  - intros a Ha. apply write_slots_frame. rewrite Haddr. exact Ha.
Qed.

End DecodedBootstrap.

(** * Further scenarios, run *)

Section MoreBootstrapScenarios.

Import Scenario MoreScenarios.

Local Abbreviation rebaseDyld := (dyldbootstrap.rebaseDyld fixupAllChainedFixups).
Local Abbreviation start_run :=
  (dyldbootstrap.start_bootstrap fixupAllChainedFixups no_slide
     9000 2 argument_area dyld_image 0).

(** X2 (witness): on the aligned loader image the whole page of the
    read-only-data segment becomes read-only, also past the end of the
    segment, and the next page keeps its protection; through a run that
    aborts an address of the segment keeps its protection. *)
Lemma rebaseDyld_protection_frame_witness :
  returned (rebaseDyld aligned_image fresh) = true /\
  in_segment aligned_image
    {| vmAddr := 4096; vmSize := 64; readOnlyData := true |} 69732 = false /\
  st_protection (final_state (rebaseDyld aligned_image fresh)) 69732
    = VM_PROT_READ /\
  st_protection (final_state (rebaseDyld aligned_image fresh)) 73728
    = st_protection fresh 73728 /\
  returned (rebaseDyld binding_image fresh) = false /\
  st_protection (final_state (rebaseDyld binding_image fresh)) 4362
    = st_protection fresh 4362.
Proof.
  split; [vm_compute; reflexivity|]. split; [vm_compute; reflexivity|].
  split; [|split; [|split; [vm_compute; reflexivity|]]].
  - apply (proj1 (rebaseDyld_protection_frame fixupAllChainedFixups aligned_image
                    fresh 69732)
             ltac:(vm_compute; reflexivity)
             {| vmAddr := 4096; vmSize := 64; readOnlyData := true |}).
    + right. left.
    + vm_compute. reflexivity.
  - apply (proj2 (rebaseDyld_protection_frame fixupAllChainedFixups aligned_image
                    fresh 73728)).
    right. intros info Hin Hro.
    change (segments aligned_image) with aligned_segments in Hin.
    unfold aligned_segments in Hin.
    repeat (apply elem_of_cons in Hin as [->|Hin];
            [first [discriminate Hro | right; vm_compute; reflexivity]|]).
    apply elem_of_nil in Hin. contradiction.
  - apply (proj2 (rebaseDyld_protection_frame fixupAllChainedFixups binding_image
                    fresh 4362)).
    left. vm_compute. reflexivity.
Defined.

(** X8 (witness): [start] on the argument area of [prog -v], with the
    loader image whose fixups succeed and with the one whose chain holds
    a bind entry. *)
Lemma start_reaches_main_iff_witness :
  returned (start_run fresh) = true /\
  returned (dyldbootstrap.start_bootstrap fixupAllChainedFixups no_slide
              9000 2 argument_area binding_image 0 fresh) = false.
Proof.
  split.
  - rewrite (start_reaches_main_iff fixupAllChainedFixups no_slide 9000 2
               argument_area dyld_image 0 fresh).
    + vm_compute. reflexivity.
    + lia.
    + vm_compute. eexists. reflexivity.
  - rewrite (start_reaches_main_iff fixupAllChainedFixups no_slide 9000 2
               argument_area binding_image 0 fresh).
    + vm_compute. reflexivity.
    + lia.
    + vm_compute. eexists. reflexivity.
Defined.

(** X9 (witness): a process started as [prog -v] with one environment
    string and one apple string: [envp] is at position 3 of the argument
    area and [apple] at position 5. *)
Lemma start_finds_envp_and_apple_witness :
  exists s',
    start_run fresh =
    Returned {| ma_mainExecutableMH := 9000; ma_mainExecutableSlide := 0;
                ma_argc := 2; ma_argv := 0%nat; ma_envp := 3%nat;
                ma_apple := 5%nat; ma_startGlue := 0 |} s'.
Proof.
  apply (start_finds_envp_and_apple fixupAllChainedFixups no_slide 9000 2
           [7001; 7002] [7101] [7201; 0] dyld_image 0 fresh).
  - reflexivity.
  - repeat constructor; discriminate.
  - vm_compute. reflexivity.
Defined.

(** X16 (witness): the loader image at 0x1000, whose chains hold three
    rebase entries. *)
Lemma rebaseDyld_rebases_every_slot_witness :
  returned (rebaseDyld dyld_image fresh) = true /\
  st_memory (final_state (rebaseDyld dyld_image fresh)) !! (4096 + 512 + 8)
    = Some (128 + 4096) /\
  st_memory (final_state (rebaseDyld dyld_image fresh)) !! 4096 = None.
Proof.
  destruct (rebaseDyld_rebases_every_slot dyld_image fresh
              [ {| FixupChain.segment_offset := 256; FixupChain.segment_size := 64;
                   FixupChain.chain :=
                     [ {| FixupChain.slot_offset := 16;
                          FixupChain.kind := FixupChain.rebase 32 |} ] |};
                {| FixupChain.segment_offset := 512; FixupChain.segment_size := 32;
                   FixupChain.chain := dyld_chain |} ])
    as (Hret & Hslots & Hframe).
  - vm_compute. split; [discriminate|reflexivity].
  - reflexivity.
  - reflexivity.
  - intros sc d Hsc Hd.
    repeat (apply elem_of_cons in Hsc as [->|Hsc];
            [simpl in Hd; unfold dyld_chain in Hd;
             repeat (apply elem_of_cons in Hd as [->|Hd];
                     [split; vm_compute; reflexivity|]);
             apply elem_of_nil in Hd; contradiction|]).
    apply elem_of_nil in Hsc. contradiction.
  - apply (bool_decide_unpack _). vm_compute. exact I.
  - split; [exact Hret|]. split.
    + apply (Hslots {| FixupChain.segment_offset := 512; FixupChain.segment_size := 32;
                       FixupChain.chain := dyld_chain |}
               {| FixupChain.slot_offset := 8;
                  FixupChain.kind := FixupChain.rebase 128 |} 128).
      * right. left.
      * right. left.
      * reflexivity.
    + rewrite Hframe; [reflexivity|].
      apply (bool_decide_unpack _). vm_compute. exact I.
Defined.

End MoreBootstrapScenarios.

Section TestScenarios.

Import Scenario MoreScenarios DlopenFailCleanly.

Local Abbreviation run_main :=
  (loader_main run_installed any_version map_above "/run").

(** X14 (witness): the test run against the load engine, whose registry
    names every image below its count, in a process that already holds
    an image under [/run]. *)
Lemma main_never_null_path_witness :
  (run_main tainted).1.1 <> NULL_PATH /\
  (run_main tainted).1.1 =
    FAIL "Found unexpected loaded image: %s" (Some "/run/libz.dylib").
Proof.
  split; [|vm_compute; reflexivity].
  apply (main_never_null_path "/run"
           (loader_dlopen run_installed any_version map_above)
           Loader.image_count Loader.image_name_at tainted).
  intros q i Hi. unfold Loader.image_name_at, Loader.image_count in *.
  destruct (lookup_lt_is_Some_2 (Loader.registry q) i Hi) as [img Himg].
  rewrite Himg. eexists. reflexivity.
Defined.

(** X15 (witness): the chain liba, libb, libc installed under [/run],
    where libb needs a symbol that libc does not export, loaded by the
    test into a process running the main program. *)
Lemma test_verdict_after_failed_load_witness :
  (Loader.load run_installed any_version map_above "/run/liba.dylib" running).1
    = Loader.Failed (Loader.FixupFailure
                       (FixupChain.UnresolvedSymbol "/run/libb.dylib" 1 8)) /\
  (run_main running).2 = running /\
  ((run_main running).1.1 = PASS "Success" <-> no_image_named "/run/lib" running).
Proof.
  assert (Hfail : (Loader.load run_installed any_version map_above
                     (liba_path "/run") running).1
                  = Loader.Failed (Loader.FixupFailure
                       (FixupChain.UnresolvedSymbol "/run/libb.dylib" 1 8)))
    by (vm_compute; reflexivity).
  split; [exact Hfail|].
  destruct (test_verdict_after_failed_load run_installed any_version map_above
              "/run" running _ Hfail) as (Hsame & Hverdict & _).
  - vm_compute. reflexivity.
  - split; [exact Hsame|exact Hverdict].
Defined.

End TestScenarios.
